(** * Black-Scholes pricing engine: a real-number embedding of
      [black_scholes.py] and the properties of its prices and Greeks.

    Python floats are idealised as the real numbers of the Standard
    Library: every arithmetic operation is exact, and there is neither
    rounding nor overflow.  The embedding follows the source method by
    method.  The reals have no infinity and no NaN, so the value a method
    returns is only described where [np.log] gets a positive argument and
    the numpy divisions a non-zero divisor.  Nor is there an overflow: the
    [OverflowError] that [self.sigma**2] raises on a Python float of
    magnitude about 1.34e154 or more has no counterpart here, so for
    T > 0 nothing below says that a method returns on every input.

    After the engine come the Greeks as derivatives of the prices, the
    bounds and limits of the prices, and the sweeps of [app.py]: the heat
    maps, the payoff diagrams and the default ranges of the sidebar. *)

From Stdlib Require Import Reals Lra Lia List NArith String Ascii Bool.
Import ListNotations.

Open Scope R_scope.

(** ** Outcomes of a Python call *)

(** The exceptions the module can raise on real-valued inputs:
    [ZeroDivisionError] from the division of two Python floats,
    [ValueError] from the explicit [raise] of [calculate_option_price].
    (The [OverflowError] of a float power is a matter of the float range
    and is not modelled.) *)
Inductive exn : Type :=
| ZeroDivisionError
| ValueError.

Inductive result (A : Type) : Type :=
| Returned (a : A)
| Raised (e : exn).

Arguments Returned {A} a.
Arguments Raised {A} e.

Definition bind {A B : Type} (m : result A) (k : A -> result B) : result B :=
  match m with
  | Returned a => k a
  | Raised e => Raised e
  end.

Notation "x <- m ;; k" := (bind m (fun x => k))
  (at level 61, m at next level, right associativity).

(** ** Python and numpy primitives *)

(** [x / y] on two Python floats raises on a zero divisor.  The other
    divisions of the source have a numpy [float64] operand and never
    raise. *)
Definition py_truediv (x y : R) : result R :=
  if Req_dec_T y 0 then Raised ZeroDivisionError else Returned (x / y).

(** The builtin [max(a, b)] keeps its first argument unless the second is
    strictly larger. *)
Definition py_max (a b : R) : R :=
  if Rlt_dec a b then b else a.

(** ** The standard normal distribution ([scipy.stats.norm]) *)

(** scipy is not part of the repository; [norm.pdf] and [norm.cdf] are
    the density and the distribution function of the standard normal law,
    taken here from their mathematical definitions. *)
Definition norm_pdf (x : R) : R :=
  exp (- (x ^ 2) / 2) / sqrt (2 * PI).

(** Integrability of a function that is continuous everywhere, for both
    orders of the bounds. *)
Definition cont_integrable (f : R -> R) (Hf : continuity f) (a b : R) :
  Riemann_integrable f a b :=
  match Rle_dec a b with
  | left Hab => continuity_implies_RiemannInt Hab (fun x _ => Hf x)
  | right Hba =>
      RiemannInt_P1
        (continuity_implies_RiemannInt
           (Rlt_le b a (Rnot_le_lt a b Hba)) (fun x _ => Hf x))
  end.

(** The integral of an everywhere continuous function. *)
Definition integral (f : R -> R) (Hf : continuity f) (a b : R) : R :=
  RiemannInt (cont_integrable f Hf a b).

Lemma norm_pdf_continuity : continuity norm_pdf.
Proof.
  unfold norm_pdf. reg.
Qed.

Definition norm_cdf (x : R) : R :=
  1 / 2 + integral norm_pdf norm_pdf_continuity 0 x.

(** ** The class [BlackScholes] *)

Module BlackScholes.

(** The five attributes [__init__] stores; construction checks
    nothing. *)
Record t : Type := __init__ {
  S : R;
  K : R;
  T : R;
  r : R;
  sigma : R
}.

Definition _d1 (self : t) : result R :=
  q <- py_truediv (S self) (K self) ;;
  Returned ((ln q + (r self + 1 / 2 * sigma self ^ 2) * T self)
            / (sigma self * sqrt (T self))).

Definition _d2 (self : t) : result R :=
  d1 <- _d1 self ;;
  Returned (d1 - sigma self * sqrt (T self)).

Definition call_price (self : t) : result R :=
  if Rle_dec (T self) 0 then Returned (py_max 0 (S self - K self))
  else
    d1 <- _d1 self ;;
    d2 <- _d2 self ;;
    Returned (S self * norm_cdf d1
              - K self * exp (- r self * T self) * norm_cdf d2).

Definition put_price (self : t) : result R :=
  if Rle_dec (T self) 0 then Returned (py_max 0 (K self - S self))
  else
    d1 <- _d1 self ;;
    d2 <- _d2 self ;;
    Returned (K self * exp (- r self * T self) * norm_cdf (- d2)
              - S self * norm_cdf (- d1)).

Definition delta_call (self : t) : result R :=
  if Rle_dec (T self) 0 then
    Returned (if Rgt_dec (S self) (K self) then 1 else 0)
  else
    d1 <- _d1 self ;;
    Returned (norm_cdf d1).

Definition delta_put (self : t) : result R :=
  if Rle_dec (T self) 0 then
    Returned (if Rlt_dec (S self) (K self) then -1 else 0)
  else
    d1 <- _d1 self ;;
    Returned (norm_cdf d1 - 1).

Definition gamma (self : t) : result R :=
  if Rle_dec (T self) 0 then Returned 0
  else
    d1 <- _d1 self ;;
    Returned (norm_pdf d1 / (S self * sigma self * sqrt (T self))).

Definition vega (self : t) : result R :=
  if Rle_dec (T self) 0 then Returned 0
  else
    d1 <- _d1 self ;;
    Returned (S self * norm_pdf d1 * sqrt (T self)).

Definition theta_call (self : t) : result R :=
  if Rle_dec (T self) 0 then Returned 0
  else
    d1 <- _d1 self ;;
    d2 <- _d2 self ;;
    let theta :=
      - S self * norm_pdf d1 * sigma self / (2 * sqrt (T self))
      - r self * K self * exp (- r self * T self) * norm_cdf d2 in
    Returned (theta / 365).

Definition theta_put (self : t) : result R :=
  if Rle_dec (T self) 0 then Returned 0
  else
    d1 <- _d1 self ;;
    d2 <- _d2 self ;;
    let theta :=
      - S self * norm_pdf d1 * sigma self / (2 * sqrt (T self))
      + r self * K self * exp (- r self * T self) * norm_cdf (- d2) in
    Returned (theta / 365).

Definition rho_call (self : t) : result R :=
  if Rle_dec (T self) 0 then Returned 0
  else
    d2 <- _d2 self ;;
    Returned (K self * T self * exp (- r self * T self) * norm_cdf d2).

Definition rho_put (self : t) : result R :=
  if Rle_dec (T self) 0 then Returned 0
  else
    d2 <- _d2 self ;;
    Returned (- K self * T self * exp (- r self * T self) * norm_cdf (- d2)).

End BlackScholes.

(** The public pricing and Greek methods of the class, in source
    order. *)
Definition operations : list (BlackScholes.t -> result R) :=
  [ BlackScholes.call_price; BlackScholes.put_price;
    BlackScholes.delta_call; BlackScholes.delta_put;
    BlackScholes.gamma; BlackScholes.vega;
    BlackScholes.theta_call; BlackScholes.theta_put;
    BlackScholes.rho_call; BlackScholes.rho_put ].

(** ** [calculate_option_price] *)

(** Strings are sequences of code points below 256.  [str.lower] maps
    the capital letters A-Z and the capital Latin-1 letters to their small
    forms and leaves every other such code point alone. *)
Definition is_upper (n : N) : bool :=
  ((65 <=? n) && (n <=? 90)
   || (192 <=? n) && (n <=? 222) && negb (n =? 215))%N.

Definition lower_char (c : ascii) : ascii :=
  let n := N_of_ascii c in
  if is_upper n then ascii_of_N (n + 32) else c.

Fixpoint lower (s : string) : string :=
  match s with
  | EmptyString => EmptyString
  | String c s' => String (lower_char c) (lower s')
  end.

Definition calculate_option_price
           (S K T r sigma : R) (option_type : string) : result R :=
  let bs := BlackScholes.__init__ S K T r sigma in
  if String.eqb (lower option_type) "call" then BlackScholes.call_price bs
  else if String.eqb (lower option_type) "put" then BlackScholes.put_price bs
  else Raised ValueError.

(** Equality of two strings up to the case of their letters, character
    by character: the codes agree, or one is a capital letter and the
    other its small form, 32 code points further. *)
Definition same_letter (a b : ascii) : bool :=
  let x := N_of_ascii a in
  let y := N_of_ascii b in
  ((x =? y) || is_upper x && (y =? x + 32) || is_upper y && (x =? y + 32))%N.

Fixpoint eq_ignore_case (s t : string) : bool :=
  match s, t with
  | EmptyString, EmptyString => true
  | String a s', String b t' => same_letter a b && eq_ignore_case s' t'
  | _, _ => false
  end.

(** ** Sample snapshots *)

(** The worked example of the specification: S = 100, K = 100, T = 1,
    r = 0.05, sigma = 0.20. *)
Definition at_the_money : BlackScholes.t :=
  BlackScholes.__init__ 100 100 1 (5 / 100) (2 / 10).

(** The expiry example: S = 110, K = 100, T = 0. *)
Definition at_expiry : BlackScholes.t :=
  BlackScholes.__init__ 110 100 0 (5 / 100) (2 / 10).

(** A snapshot past expiry with no volatility: T = -1 and sigma = 0. *)
Definition past_expiry : BlackScholes.t :=
  BlackScholes.__init__ 110 100 (-1) (5 / 100) 0.

(** ** The memoising variant of the engine *)

(** The variant the specification asks a reimplementation to be: the
    pair (d1, d2) is obtained once per snapshot, d2 from the d1 already
    at hand, and every price and Greek reads the pair. *)
Module Cached.

Import BlackScholes.

Definition d1_d2 (self : t) : result (R * R) :=
  d1 <- _d1 self ;;
  Returned (d1, d1 - sigma self * sqrt (T self)).

Definition call_price (self : t) : result R :=
  if Rle_dec (T self) 0 then Returned (py_max 0 (S self - K self))
  else
    p <- d1_d2 self ;;
    Returned (S self * norm_cdf (fst p)
              - K self * exp (- r self * T self) * norm_cdf (snd p)).

Definition put_price (self : t) : result R :=
  if Rle_dec (T self) 0 then Returned (py_max 0 (K self - S self))
  else
    p <- d1_d2 self ;;
    Returned (K self * exp (- r self * T self) * norm_cdf (- snd p)
              - S self * norm_cdf (- fst p)).

Definition delta_call (self : t) : result R :=
  if Rle_dec (T self) 0 then
    Returned (if Rgt_dec (S self) (K self) then 1 else 0)
  else
    p <- d1_d2 self ;;
    Returned (norm_cdf (fst p)).

Definition delta_put (self : t) : result R :=
  if Rle_dec (T self) 0 then
    Returned (if Rlt_dec (S self) (K self) then -1 else 0)
  else
    p <- d1_d2 self ;;
    Returned (norm_cdf (fst p) - 1).

Definition gamma (self : t) : result R :=
  if Rle_dec (T self) 0 then Returned 0
  else
    p <- d1_d2 self ;;
    Returned (norm_pdf (fst p) / (S self * sigma self * sqrt (T self))).

Definition vega (self : t) : result R :=
  if Rle_dec (T self) 0 then Returned 0
  else
    p <- d1_d2 self ;;
    Returned (S self * norm_pdf (fst p) * sqrt (T self)).

Definition theta_call (self : t) : result R :=
  if Rle_dec (T self) 0 then Returned 0
  else
    p <- d1_d2 self ;;
    let theta :=
      - S self * norm_pdf (fst p) * sigma self / (2 * sqrt (T self))
      - r self * K self * exp (- r self * T self) * norm_cdf (snd p) in
    Returned (theta / 365).

Definition theta_put (self : t) : result R :=
  if Rle_dec (T self) 0 then Returned 0
  else
    p <- d1_d2 self ;;
    let theta :=
      - S self * norm_pdf (fst p) * sigma self / (2 * sqrt (T self))
      + r self * K self * exp (- r self * T self) * norm_cdf (- snd p) in
    Returned (theta / 365).

Definition rho_call (self : t) : result R :=
  if Rle_dec (T self) 0 then Returned 0
  else
    p <- d1_d2 self ;;
    Returned (K self * T self * exp (- r self * T self) * norm_cdf (snd p)).

Definition rho_put (self : t) : result R :=
  if Rle_dec (T self) 0 then Returned 0
  else
    p <- d1_d2 self ;;
    Returned (- K self * T self * exp (- r self * T self) * norm_cdf (- snd p)).

End Cached.

(** * Integrals of continuous functions *)

Section Integral.
Variable f : R -> R.
Hypothesis Hf : continuity f.

(** The value does not depend on the proof of integrability. *)
Lemma integral_irrel a b (pr : Riemann_integrable f a b) :
  integral f Hf a b = RiemannInt pr.
Proof. apply RiemannInt_P5. Qed.

Lemma integral_chasles a b c :
  integral f Hf a b + integral f Hf b c = integral f Hf a c.
Proof. apply RiemannInt_P26. Qed.

Lemma integral_refl a : integral f Hf a a = 0.
Proof. apply RiemannInt_P9. Qed.

(** A derivative only depends on the function near the point. *)
Lemma derivable_pt_lim_local (g h : R -> R) (x l : R) (d : posreal) :
  (forall y, Rabs (y - x) < d -> g y = h y) ->
  derivable_pt_lim h x l -> derivable_pt_lim g x l.
Proof.
  intros Hloc Hh eps Heps.
  destruct (Hh eps Heps) as [d' Hd'].
  assert (Hm : 0 < Rmin d d').
  { apply Rmin_pos; [apply (cond_pos d) | apply (cond_pos d')]. }
  exists (mkposreal _ Hm); simpl; intros k Hk0 Hk.
  rewrite (Hloc (x + k)), (Hloc x).
  - apply Hd'; [assumption|].
    eapply Rlt_le_trans; [apply Hk | apply Rmin_r].
  - replace (x - x) with 0 by ring. rewrite Rabs_R0. apply (cond_pos d).
  - replace (x + k - x) with k by ring.
    eapply Rlt_le_trans; [apply Hk | apply Rmin_l].
Qed.

(** The integral is a primitive of its integrand, on either side of the
    lower bound. *)
Lemma integral_deriv a x :
  derivable_pt_lim (fun y => integral f Hf a y) x (f x).
Proof.
  set (lo := Rmin a x - 1). set (hi := Rmax a x + 1).
  assert (Hlo : lo < x) by (unfold lo; pose proof (Rmin_r a x); lra).
  assert (Hhi : x < hi) by (unfold hi; pose proof (Rmax_r a x); lra).
  assert (h : lo <= hi) by lra.
  pose (C0 := fun (y : R) (_ : lo <= y <= hi) => Hf y).
  pose proof (RiemannInt_P27 h C0 (conj Hlo Hhi)) as HP.
  assert (Hd : 0 < Rmin (x - lo) (hi - x)) by (apply Rmin_pos; lra).
  apply (derivable_pt_lim_local _
           (fun y => primitive h (FTC_P1 h C0) y - integral f Hf lo a)
           x (f x) (mkposreal _ Hd)).
  - simpl; intros y Hy.
    assert (Hy' : lo <= y <= hi).
    { pose proof (Rmin_l (x - lo) (hi - x)).
      pose proof (Rmin_r (x - lo) (hi - x)).
      apply Rabs_def2 in Hy. lra. }
    unfold primitive.
    destruct (Rle_dec lo y) as [H1|H1]; [|lra].
    destruct (Rle_dec y hi) as [H2|H2]; [|lra].
    rewrite <- (integral_irrel lo y).
    rewrite <- (integral_chasles lo a y). ring.
  - replace (f x) with (f x - 0) by ring.
    apply derivable_pt_lim_minus; [exact HP | apply derivable_pt_lim_const].
Qed.
End Integral.

(** A function whose derivative vanishes everywhere is constant. *)
Lemma null_derivative_const (H : R -> R) :
  (forall x, derivable_pt_lim H x 0) -> forall a b, H a = H b.
Proof.
  intros HH.
  assert (Hlt : forall a b, a < b -> H a = H b).
  { intros a b Hab.
    destruct (MVT_cor2 H (fun _ => 0) a b Hab (fun c _ => HH c)) as [c [Hc _]].
    lra. }
  intros a b.
  destruct (Rtotal_order a b) as [Hab|[Hab|Hab]].
  - now apply Hlt.
  - now subst.
  - symmetry; now apply Hlt.
Qed.

(** The integral of a continuous function is the increment of any of
    its primitives. *)
Lemma integral_FTC (f G : R -> R) (Hf : continuity f) (a b : R) :
  (forall x, derivable_pt_lim G x (f x)) ->
  integral f Hf a b = G b - G a.
Proof.
  intros HG.
  assert (H0 : forall x, derivable_pt_lim (fun y => integral f Hf a y - G y) x 0).
  { intros x. replace 0 with (f x - f x) by ring.
    apply derivable_pt_lim_minus; [apply integral_deriv | apply HG]. }
  pose proof (null_derivative_const _ H0 a b) as E. simpl in E.
  rewrite integral_refl in E. lra.
Qed.

(** Linearity, for integrands given up to pointwise equality. *)
Lemma integral_linear (f g k : R -> R) (l : R)
      (Hf : continuity f) (Hg : continuity g) (Hk : continuity k) a b :
  (forall t, k t = f t + l * g t) ->
  integral k Hk a b = integral f Hf a b + l * integral g Hg a b.
Proof.
  intros E.
  rewrite (integral_FTC k
             (fun y => integral f Hf a y + l * integral g Hg a y) Hk a b).
  - rewrite !integral_refl. ring.
  - intros x. rewrite E.
    apply derivable_pt_lim_plus; [apply integral_deriv|].
    apply derivable_pt_lim_scal, integral_deriv.
Qed.

(** Bounds on the integral from bounds on the integrand. *)
Lemma integral_bound (k : R -> R) (Hk : continuity k) (a b B : R) :
  a <= b -> (forall t, a <= t <= b -> Rabs (k t) <= B) ->
  Rabs (integral k Hk a b) <= B * (b - a).
Proof.
  intros Hab HB.
  assert (H : - B * (b - a) <= integral k Hk a b <= B * (b - a)).
  { apply RiemannInt_const_bound; [assumption|].
    intros x Hx. assert (Hx' : a <= x <= b) by lra.
    specialize (HB x Hx').
    pose proof (Rle_abs (k x)) as Hp.
    pose proof (Rle_abs (- k x)) as Hn. rewrite Rabs_Ropp in Hn. lra. }
  apply Rabs_le. lra.
Qed.

Lemma integral_nonneg (k : R -> R) (Hk : continuity k) (a b : R) :
  a <= b -> (forall t, a <= t <= b -> 0 <= k t) -> 0 <= integral k Hk a b.
Proof.
  intros Hab H0.
  pose proof (RiemannInt_P19 (RiemannInt_P14 a b 0)
                (cont_integrable k Hk a b) Hab) as P.
  rewrite RiemannInt_P15 in P. unfold integral.
  replace 0 with (0 * (b - a)) by ring.
  apply P. intros x Hx. unfold fct_cte. apply H0. lra.
Qed.

(** Differentiation under the integral sign, for an integrand whose
    partial derivative is Lipschitz in the parameter, uniformly in the
    integration variable. *)
Section DiffUnderIntegral.
Variables g g1 : R -> R -> R.
Variables a b M : R.
Hypothesis Hab : a <= b.
Hypothesis Hg : forall x, continuity (g x).
Hypothesis Hg1 : forall x, continuity (g1 x).
Hypothesis Hd : forall x t, derivable_pt_lim (fun y => g y t) x (g1 x t).
Hypothesis Hlip : forall x y t, Rabs (g1 y t - g1 x t) <= M * Rabs (y - x).

Lemma lipschitz_const_nonneg : 0 <= M.
Proof.
  pose proof (Hlip 0 1 0) as H.
  replace (1 - 0) with 1 in H by ring. rewrite Rabs_R1 in H.
  pose proof (Rabs_pos (g1 1 0 - g1 0 0)). lra.
Qed.

Lemma quotient_close x h t :
  h <> 0 -> Rabs (g1 x t + - / h * (g (x + h) t + -1 * g x t)) <= M * Rabs h.
Proof.
  intros Hh.
  assert (Hc : exists c, g (x + h) t - g x t = g1 c t * h /\ Rabs (c - x) <= Rabs h).
  { destruct (Rtotal_order 0 h) as [Hp|[Hp|Hp]]; [|lra|].
    - destruct (MVT_cor2 (fun y => g y t) (fun y => g1 y t) x (x + h))
        as [c [E Hcx]]; [lra | intros; apply Hd |].
      exists c. split; [rewrite E; ring|].
      rewrite (Rabs_pos_eq h), Rabs_pos_eq; lra.
    - destruct (MVT_cor2 (fun y => g y t) (fun y => g1 y t) (x + h) x)
        as [c [E Hcx]]; [lra | intros; apply Hd |].
      exists c. split; [lra|].
      rewrite (Rabs_left h), Rabs_left; lra. }
  destruct Hc as [c [E Hcx]].
  replace (g1 x t + - / h * (g (x + h) t + -1 * g x t))
    with (- (g1 c t - g1 x t)).
  2:{ replace (g (x + h) t + -1 * g x t) with (g1 c t * h) by lra.
      field. assumption. }
  rewrite Rabs_Ropp.
  eapply Rle_trans; [apply Hlip|].
  apply Rmult_le_compat_l; [apply lipschitz_const_nonneg | assumption].
Qed.

Hypothesis Hq : forall x h, continuity (fun t => g1 x t + - / h * (g (x + h) t + -1 * g x t)).
Hypothesis Hw : forall x h, continuity (fun t => g (x + h) t + -1 * g x t).

Lemma diff_under_integral x :
  derivable_pt_lim (fun y => integral (g y) (Hg y) a b) x
                   (integral (g1 x) (Hg1 x) a b).
Proof.
  intros eps Heps.
  pose proof lipschitz_const_nonneg as HM.
  assert (Hden : 0 < M * (b - a) + 1).
  { assert (0 <= M * (b - a)) by (apply Rmult_le_pos; lra). lra. }
  assert (Hdel : 0 < eps / (M * (b - a) + 1)) by (apply Rdiv_lt_0_compat; lra).
  exists (mkposreal _ Hdel); simpl; intros h Hh0 Hh.
  pose proof (integral_linear (g (x + h)) (g x) _ (-1) (Hg (x + h)) (Hg x) (Hw x h) a b
                (fun t => eq_refl)) as E1.
  pose proof (integral_linear (g1 x) _ _ (- / h) (Hg1 x) (Hw x h) (Hq x h) a b
                (fun t => eq_refl)) as E2.
  replace ((integral (g (x + h)) (Hg (x + h)) a b - integral (g x) (Hg x) a b) / h
           - integral (g1 x) (Hg1 x) a b)
    with (- integral _ (Hq x h) a b).
  2:{ rewrite E2, E1. field. assumption. }
  rewrite Rabs_Ropp.
  eapply Rle_lt_trans.
  { apply (integral_bound _ (Hq x h) a b (M * Rabs h) Hab).
    intros t _. apply quotient_close; assumption. }
  apply Rlt_le_trans with (Rabs h * (M * (b - a) + 1)).
  - pose proof (Rabs_pos_lt h Hh0). nra.
  - apply Rlt_le. replace eps with (eps / (M * (b - a) + 1) * (M * (b - a) + 1)) at 1
      by (field; lra).
    apply Rmult_lt_compat_r; assumption.
Qed.
End DiffUnderIntegral.

Lemma integral_scal (g k : R -> R) (l : R)
      (Hg : continuity g) (Hk : continuity k) a b :
  (forall t, k t = l * g t) ->
  integral k Hk a b = l * integral g Hg a b.
Proof.
  intros E.
  rewrite (integral_FTC k (fun y => l * integral g Hg a y) Hk a b).
  - rewrite !integral_refl. ring.
  - intros x. rewrite E. apply derivable_pt_lim_scal, integral_deriv.
Qed.


(** * The Gaussian integral *)

Lemma deriv_quad (c x : R) :
  derivable_pt_lim (fun y => c * (y * y)) x (c * (2 * x)).
Proof.
  apply derivable_pt_lim_scal.
  replace (2 * x) with (1 * x + x * 1) by ring.
  apply (derivable_pt_lim_mult id id); apply derivable_pt_lim_id.
Qed.

Lemma deriv_exp_quad (c x : R) :
  derivable_pt_lim (fun y => exp (c * (y * y))) x (exp (c * (x * x)) * (c * (2 * x))).
Proof.
  apply (derivable_pt_lim_comp (fun y => c * (y * y)) exp).
  - apply deriv_quad.
  - apply derivable_pt_lim_exp.
Qed.

(** The unnormalised density and its integral from 0. *)
Definition gauss (x : R) : R := exp (- (x ^ 2) / 2).

Lemma gauss_continuity : continuity gauss.
Proof. unfold gauss. reg. Qed.

Definition gauss_int (x : R) : R := integral gauss gauss_continuity 0 x.

(** The integrand whose parametric integral complements the square of
    [gauss_int], with its first two partial derivatives in [x]. *)
Definition kern (x t : R) : R := exp (- (1 + t * t) / 2 * (x * x)) / (1 + t * t).
Definition kern_x (x t : R) : R := - x * exp (- (1 + t * t) / 2 * (x * x)).
Definition kern_xx (x t : R) : R :=
  ((1 + t * t) * (x * x) - 1) * exp (- (1 + t * t) / 2 * (x * x)).

Lemma one_plus_sq_pos t : 0 < 1 + t * t.
Proof. nra. Qed.

Lemma kern_deriv x t : derivable_pt_lim (fun y => kern y t) x (kern_x x t).
Proof.
  unfold kern, kern_x. pose proof (one_plus_sq_pos t) as Ht.
  apply (derivable_pt_lim_ext
           (fun y => / (1 + t * t) * exp (- (1 + t * t) / 2 * (y * y)))).
  { intros z. unfold Rdiv. ring. }
  replace (- x * exp (- (1 + t * t) / 2 * (x * x)))
    with (/ (1 + t * t) *
          (exp (- (1 + t * t) / 2 * (x * x)) * (- (1 + t * t) / 2 * (2 * x))))
    by (field; lra).
  apply derivable_pt_lim_scal, deriv_exp_quad.
Qed.

Lemma kern_x_deriv x t : derivable_pt_lim (fun y => kern_x y t) x (kern_xx x t).
Proof.
  unfold kern_x, kern_xx.
  replace (((1 + t * t) * (x * x) - 1) * exp (- (1 + t * t) / 2 * (x * x)))
    with (-1 * exp (- (1 + t * t) / 2 * (x * x))
          + - x * (exp (- (1 + t * t) / 2 * (x * x)) * (- (1 + t * t) / 2 * (2 * x))))
    by field.
  apply (derivable_pt_lim_mult (fun y => - y) (fun y => exp (- (1 + t * t) / 2 * (y * y)))).
  - apply (derivable_pt_lim_opp id), derivable_pt_lim_id.
  - apply deriv_exp_quad.
Qed.

Lemma kern_xx_bound x t : Rabs (kern_xx x t) <= 3.
Proof.
  unfold kern_xx.
  set (y := (1 + t * t) / 2 * (x * x)).
  assert (Hy : 0 <= y).
  { unfold y. pose proof (one_plus_sq_pos t). assert (0 <= x * x) by nra. 
    apply Rmult_le_pos; lra. }
  replace (- (1 + t * t) / 2 * (x * x)) with (- y) by (unfold y; field).
  replace ((1 + t * t) * (x * x) - 1) with (2 * y - 1) by (unfold y; field).
  pose proof (exp_pos (- y)) as He.
  assert (He1 : exp (- y) <= 1).
  { rewrite <- exp_0. destruct Hy as [Hy|Hy].
    - left. apply exp_increasing. lra.
    - rewrite <- Hy. rewrite Ropp_0. lra. }
  assert (Hye : y * exp (- y) <= 1).
  { rewrite exp_Ropp. pose proof (exp_ineq1_le y). pose proof (exp_pos y).
    apply Rmult_le_reg_r with (exp y); [assumption|].
    rewrite Rmult_assoc, Rinv_l; lra. }
  apply Rabs_le. nra.
Qed.

Lemma kern_x_lipschitz x y t : Rabs (kern_x y t - kern_x x t) <= 3 * Rabs (y - x).
Proof.
  destruct (Rtotal_order x y) as [H|[H|H]].
  - destruct (MVT_cor2 (fun z => kern_x z t) (fun z => kern_xx z t) x y H
                (fun c _ => kern_x_deriv c t)) as [c [E _]].
    rewrite E, Rabs_mult. apply Rmult_le_compat_r; [apply Rabs_pos | apply kern_xx_bound].
  - subst. replace (kern_x y t - kern_x y t) with 0 by ring.
    replace (y - y) with 0 by ring. rewrite Rabs_R0. lra.
  - destruct (MVT_cor2 (fun z => kern_x z t) (fun z => kern_xx z t) y x H
                (fun c _ => kern_x_deriv c t)) as [c [E _]].
    rewrite <- (Rabs_Ropp (kern_x y t - kern_x x t)), <- (Rabs_Ropp (y - x)).
    replace (- (kern_x y t - kern_x x t)) with (kern_xx c t * (x - y)) by lra.
    replace (- (y - x)) with (x - y) by ring.
    rewrite Rabs_mult. apply Rmult_le_compat_r; [apply Rabs_pos | apply kern_xx_bound].
Qed.

Lemma kern_continuity x : continuity (kern x).
Proof.
  unfold kern. intros t. pose proof (one_plus_sq_pos t). reg. lra.
Qed.

Lemma kern_x_continuity x : continuity (kern_x x).
Proof. unfold kern_x. reg. Qed.

Definition kern_int (x : R) : R := integral (kern x) (kern_continuity x) 0 1.

Lemma kern_int_deriv x : derivable_pt_lim kern_int x (integral (kern_x x) (kern_x_continuity x) 0 1).
Proof.
  unfold kern_int.
  apply (diff_under_integral kern kern_x 0 1 3); try lra.
  - apply kern_deriv.
  - intros; apply kern_x_lipschitz.
  - intros y h. pose proof (kern_continuity (y + h)). pose proof (kern_continuity y).
    pose proof (kern_x_continuity y). reg.
  - intros y h. pose proof (kern_continuity (y + h)). pose proof (kern_continuity y). reg.
Qed.

Lemma gauss_int_deriv x : derivable_pt_lim gauss_int x (gauss x).
Proof. apply integral_deriv. Qed.

Lemma scaled_gauss_continuity x : continuity (fun t => x * gauss (x * t)).
Proof. unfold gauss. reg. Qed.

Lemma scaled_gauss_integral x :
  integral _ (scaled_gauss_continuity x) 0 1 = gauss_int x.
Proof.
  rewrite (integral_FTC _ (fun t => gauss_int (x * t))).
  - rewrite Rmult_1_r, Rmult_0_r. unfold gauss_int at 2. rewrite integral_refl. ring.
  - intros t. rewrite Rmult_comm.
    apply (derivable_pt_lim_comp (fun s => x * s) gauss_int).
    + assert (H : derivable_pt_lim (fun s => x * s) t (x * 1))
        by apply (derivable_pt_lim_scal id), derivable_pt_lim_id.
      rewrite Rmult_1_r in H. exact H.
    + apply gauss_int_deriv.
Qed.

Lemma kern_x_integral x :
  integral (kern_x x) (kern_x_continuity x) 0 1 = - gauss x * gauss_int x.
Proof.
  rewrite <- scaled_gauss_integral.
  apply integral_scal. intros t. unfold kern_x, gauss.
  replace (- (1 + t * t) / 2 * (x * x))
    with (- x ^ 2 / 2 + - (x * t) ^ 2 / 2) by field.
  rewrite exp_plus. ring.
Qed.

Lemma kern_int_0 : kern_int 0 = PI / 4.
Proof.
  unfold kern_int. rewrite (integral_FTC _ atan).
  - rewrite atan_1, atan_0. ring.
  - intros t. unfold kern. 
    replace (exp (- (1 + t * t) / 2 * (0 * 0)) / (1 + t * t)) with (/ (1 + t ^ 2)).
    + apply derivable_pt_lim_atan.
    + replace (- (1 + t * t) / 2 * (0 * 0)) with 0 by field.
      rewrite exp_0. pose proof (one_plus_sq_pos t). field. lra.
Qed.

Lemma kern_int_nonneg x : 0 <= kern_int x.
Proof.
  apply integral_nonneg; [lra|]. intros t _. unfold kern.
  pose proof (one_plus_sq_pos t). pose proof (exp_pos (- (1 + t * t) / 2 * (x * x))).
  apply Rlt_le, Rdiv_lt_0_compat; assumption.
Qed.

(** The square of the Gaussian integral and the parametric integral add
    up to a constant, the value at 0. *)
Lemma gauss_int_sq x : gauss_int x * gauss_int x / 2 + kern_int x = PI / 4.
Proof.
  rewrite <- kern_int_0.
  assert (H0 : gauss_int 0 = 0) by apply integral_refl.
  replace (kern_int 0) with (gauss_int 0 * gauss_int 0 / 2 + kern_int 0) by (rewrite H0; field).
  apply (null_derivative_const (fun y => gauss_int y * gauss_int y / 2 + kern_int y)).
  intros y.
  replace 0 with ((gauss y * gauss_int y + gauss_int y * gauss y) * / 2
                  + integral (kern_x y) (kern_x_continuity y) 0 1).
  2:{ rewrite kern_x_integral. field. }
  apply derivable_pt_lim_plus; [|apply kern_int_deriv].
  apply (derivable_pt_lim_ext (fun z => / 2 * (gauss_int z * gauss_int z))).
  { intros z. field. }
  rewrite Rmult_comm.
  apply derivable_pt_lim_scal.
  apply derivable_pt_lim_mult; apply gauss_int_deriv.
Qed.

(** Hence the integral of the density over any interval from 0 is at
    most the square root of pi / 2. *)
Lemma gauss_int_bound x : Rabs (gauss_int x) <= sqrt (PI / 2).
Proof.
  pose proof (gauss_int_sq x) as E. pose proof (kern_int_nonneg x) as HJ.
  pose proof PI_RGT_0 as Hpi.
  rewrite <- sqrt_Rsqr_abs.
  apply sqrt_le_1.
  - apply Rle_0_sqr.
  - lra.
  - unfold Rsqr. lra.
Qed.

(** * The standard normal law *)

Lemma sqrt_2PI_pos : 0 < sqrt (2 * PI).
Proof. apply sqrt_lt_R0. pose proof PI_RGT_0. lra. Qed.

Lemma sqrt_2PI_half : sqrt (2 * PI) = 2 * sqrt (PI / 2).
Proof.
  pose proof PI_RGT_0 as Hpi.
  assert (Hs : 0 <= sqrt (PI / 2)) by apply sqrt_pos.
  rewrite <- (sqrt_square (2 * sqrt (PI / 2))) by lra.
  f_equal.
  replace (2 * sqrt (PI / 2) * (2 * sqrt (PI / 2)))
    with (4 * (sqrt (PI / 2) * sqrt (PI / 2))) by ring.
  rewrite sqrt_sqrt by lra. field.
Qed.

Lemma norm_pdf_gauss x : norm_pdf x = / sqrt (2 * PI) * gauss x.
Proof. unfold norm_pdf, gauss, Rdiv. ring. Qed.

Lemma norm_pdf_pos x : 0 < norm_pdf x.
Proof.
  unfold norm_pdf. apply Rdiv_lt_0_compat; [apply exp_pos | apply sqrt_2PI_pos].
Qed.

Lemma norm_pdf_even x : norm_pdf (- x) = norm_pdf x.
Proof. unfold norm_pdf. replace ((- x) ^ 2) with (x ^ 2) by ring. reflexivity. Qed.

(** [norm.cdf] is a primitive of [norm.pdf]. *)
Lemma norm_cdf_deriv x : derivable_pt_lim norm_cdf x (norm_pdf x).
Proof.
  unfold norm_cdf.
  replace (norm_pdf x) with (0 + norm_pdf x) by ring.
  apply derivable_pt_lim_plus;
    [apply derivable_pt_lim_const | apply integral_deriv].
Qed.

Lemma norm_cdf_0 : norm_cdf 0 = 1 / 2.
Proof. unfold norm_cdf. rewrite integral_refl. ring. Qed.

(** Symmetry of the law about 0. *)
Lemma norm_cdf_sym x : norm_cdf (- x) = 1 - norm_cdf x.
Proof.
  assert (H0 : forall y,
             derivable_pt_lim (fun z => norm_cdf z + norm_cdf (- z)) y 0).
  { intros y.
    replace 0 with (norm_pdf y + norm_pdf (- y) * -1)
      by (rewrite norm_pdf_even; ring).
    apply derivable_pt_lim_plus; [apply norm_cdf_deriv|].
    apply (derivable_pt_lim_comp (fun z => - z) norm_cdf).
    - apply (derivable_pt_lim_opp id), derivable_pt_lim_id.
    - apply norm_cdf_deriv. }
  pose proof (null_derivative_const _ H0 x 0) as E. simpl in E.
  rewrite Ropp_0, norm_cdf_0 in E. lra.
Qed.

Lemma norm_cdf_gauss x : norm_cdf x = 1 / 2 + / sqrt (2 * PI) * gauss_int x.
Proof.
  unfold norm_cdf, gauss_int. f_equal.
  apply integral_scal, norm_pdf_gauss.
Qed.

(** The distribution function takes its values between 0 and 1. *)
Lemma norm_cdf_range x : 0 <= norm_cdf x <= 1.
Proof.
  rewrite norm_cdf_gauss, sqrt_2PI_half.
  pose proof (gauss_int_bound x) as HB.
  assert (Hs : 0 < sqrt (PI / 2)).
  { apply sqrt_lt_R0. pose proof PI_RGT_0. lra. }
  assert (HA : Rabs (/ (2 * sqrt (PI / 2)) * gauss_int x) <= 1 / 2).
  { rewrite Rabs_mult, Rabs_pos_eq.
    - apply Rmult_le_reg_l with (2 * sqrt (PI / 2)); [lra|].
      rewrite <- Rmult_assoc, Rinv_r by lra. lra.
    - left. apply Rinv_0_lt_compat. lra. }
  pose proof (Rle_abs (/ (2 * sqrt (PI / 2)) * gauss_int x)) as H1.
  pose proof (Rle_abs (- (/ (2 * sqrt (PI / 2)) * gauss_int x))) as H2.
  rewrite Rabs_Ropp in H2. lra.
Qed.

(** * Case-insensitive comparison *)

Lemma lower_char_code a :
  N_of_ascii (lower_char a) =
  if is_upper (N_of_ascii a) then (N_of_ascii a + 32)%N else N_of_ascii a.
Proof.
  unfold lower_char. destruct (is_upper (N_of_ascii a)) eqn:E; [|reflexivity].
  apply N_ascii_embedding.
  pose proof (N_ascii_bounded a). unfold is_upper in E.
  destruct (N.leb_spec 65 (N_of_ascii a)), (N.leb_spec (N_of_ascii a) 90),
    (N.leb_spec 192 (N_of_ascii a)), (N.leb_spec (N_of_ascii a) 222);
    simpl in E; try discriminate; lia.
Qed.

Lemma ascii_eqb_code a b : Ascii.eqb a b = (N_of_ascii a =? N_of_ascii b)%N.
Proof.
  destruct (Ascii.eqb_spec a b) as [->|Hne].
  - symmetry. apply N.eqb_refl.
  - symmetry. apply N.eqb_neq. intros E. apply Hne.
    rewrite <- (ascii_N_embedding a), <- (ascii_N_embedding b). now rewrite E.
Qed.

Lemma lower_char_same_letter a b :
  Ascii.eqb (lower_char a) (lower_char b) = same_letter a b.
Proof.
  rewrite ascii_eqb_code, !lower_char_code. unfold same_letter, is_upper.
  set (x := N_of_ascii a). set (y := N_of_ascii b).
  destruct (N.leb_spec 65 x), (N.leb_spec x 90), (N.leb_spec 192 x),
    (N.leb_spec x 222), (N.eqb_spec x 215),
    (N.leb_spec 65 y), (N.leb_spec y 90), (N.leb_spec 192 y),
    (N.leb_spec y 222), (N.eqb_spec y 215); simpl; try lia;
    repeat match goal with
           | |- context [(?u =? ?v)%N] => destruct (N.eqb_spec u v)
           end; simpl; try reflexivity; lia.
Qed.

(** Comparing the lowered strings is comparing up to case. *)
Lemma lower_eq_ignore_case s t :
  String.eqb (lower s) (lower t) = eq_ignore_case s t.
Proof.
  revert t. induction s as [|a s IH]; intros [|b t]; simpl; try reflexivity.
  rewrite lower_char_same_letter, IH. reflexivity.
Qed.

(** * The engine *)

Section Engine.

Import BlackScholes.

Lemma py_max_Rmax a b : py_max a b = Rmax a b.
Proof.
  unfold py_max, Rmax.
  destruct (Rlt_dec a b), (Rle_dec a b); try reflexivity; lra.
Qed.

(** With a non-zero strike [_d1] and [_d2] return, and [_d2] returns the
    value of [_d1] shifted by sigma * sqrt T. *)
Lemma d1_returns bs :
  K bs <> 0 ->
  _d1 bs = Returned ((ln (S bs / K bs) + (r bs + 1 / 2 * sigma bs ^ 2) * T bs)
                     / (sigma bs * sqrt (T bs))).
Proof.
  intros HK. unfold _d1, py_truediv.
  destruct (Req_dec_T (K bs) 0); [contradiction | reflexivity].
Qed.

Lemma d2_returns bs :
  K bs <> 0 ->
  _d2 bs = Returned ((ln (S bs / K bs) + (r bs + 1 / 2 * sigma bs ^ 2) * T bs)
                     / (sigma bs * sqrt (T bs))
                     - sigma bs * sqrt (T bs)).
Proof.
  intros HK. unfold _d2. rewrite d1_returns by assumption. reflexivity.
Qed.

Lemma exp_discount x y : exp (- x * y) = exp (- (x * y)).
Proof. f_equal. ring. Qed.

(** Settles the test on T and the two calls to [_d1] and [_d2] of a
    method applied to a snapshot with a non-zero strike. *)
Ltac alive HT HK :=
  match goal with
  | |- context [Rle_dec ?t 0] =>
      destruct (Rle_dec t 0) as [?|?]; [exfalso; lra|]
  end;
  rewrite ?d1_returns, ?d2_returns by exact HK; cbn [bind].

(** ** Prices *)

(** C2: on a snapshot with S > 0, K > 0 and sigma > 0, [call_price]
    returns max(0, S - K) when T <= 0 and otherwise
    S * Phi(d1) - K * exp(-r * T) * Phi(d2), with
    d1 = (ln(S / K) + (r + 0.5 * sigma^2) * T) / (sigma * sqrt T) and
    d2 = d1 - sigma * sqrt T. *)
Theorem call_price_formula (bs : t) :
  0 < S bs -> 0 < K bs -> 0 < sigma bs ->
  (T bs <= 0 -> call_price bs = Returned (Rmax 0 (S bs - K bs))) /\
  (0 < T bs ->
   let d1 := (ln (S bs / K bs) + (r bs + 1 / 2 * sigma bs ^ 2) * T bs)
             / (sigma bs * sqrt (T bs)) in
   let d2 := d1 - sigma bs * sqrt (T bs) in
   call_price bs =
   Returned (S bs * norm_cdf d1 - K bs * exp (- (r bs * T bs)) * norm_cdf d2)).
Proof.
  intros HS HK Hsig.
  assert (HK0 : K bs <> 0) by lra.
  split; intros HT; unfold call_price.
  - destruct (Rle_dec (T bs) 0); [|contradiction].
    now rewrite py_max_Rmax.
  - alive HT HK0. now rewrite exp_discount.
Qed.

Lemma call_price_formula_witness :
  0 < S at_the_money /\ 0 < K at_the_money /\ 0 < sigma at_the_money /\
  0 < T at_the_money /\
  call_price at_the_money =
  Returned (100 * norm_cdf ((ln (100 / 100)
                             + (5 / 100 + 1 / 2 * (2 / 10) ^ 2) * 1)
                            / (2 / 10 * sqrt 1))
            - 100 * exp (- (5 / 100 * 1))
              * norm_cdf ((ln (100 / 100)
                           + (5 / 100 + 1 / 2 * (2 / 10) ^ 2) * 1)
                          / (2 / 10 * sqrt 1) - 2 / 10 * sqrt 1)).
Proof.
  assert (H1 : 0 < S at_the_money) by (simpl; lra).
  assert (H2 : 0 < K at_the_money) by (simpl; lra).
  assert (H3 : 0 < sigma at_the_money) by (simpl; lra).
  assert (H4 : 0 < T at_the_money) by (simpl; lra).
  repeat split; try assumption.
  exact (proj2 (call_price_formula at_the_money H1 H2 H3) H4).
Defined.

(** C3: on a snapshot with S > 0, K > 0 and sigma > 0, [put_price]
    returns max(0, K - S) when T <= 0 and otherwise
    K * exp(-r * T) * Phi(-d2) - S * Phi(-d1), with d1 and d2 as for the
    call. *)
Theorem put_price_formula (bs : t) :
  0 < S bs -> 0 < K bs -> 0 < sigma bs ->
  (T bs <= 0 -> put_price bs = Returned (Rmax 0 (K bs - S bs))) /\
  (0 < T bs ->
   let d1 := (ln (S bs / K bs) + (r bs + 1 / 2 * sigma bs ^ 2) * T bs)
             / (sigma bs * sqrt (T bs)) in
   let d2 := d1 - sigma bs * sqrt (T bs) in
   put_price bs =
   Returned (K bs * exp (- (r bs * T bs)) * norm_cdf (- d2)
             - S bs * norm_cdf (- d1))).
Proof.
  intros HS HK Hsig.
  assert (HK0 : K bs <> 0) by lra.
  split; intros HT; unfold put_price.
  - destruct (Rle_dec (T bs) 0); [|contradiction].
    now rewrite py_max_Rmax.
  - alive HT HK0. now rewrite exp_discount.
Qed.

Lemma put_price_formula_witness :
  0 < S at_the_money /\ 0 < K at_the_money /\ 0 < sigma at_the_money /\
  0 < T at_the_money /\
  put_price at_the_money =
  Returned (100 * exp (- (5 / 100 * 1))
            * norm_cdf (- ((ln (100 / 100)
                            + (5 / 100 + 1 / 2 * (2 / 10) ^ 2) * 1)
                           / (2 / 10 * sqrt 1) - 2 / 10 * sqrt 1))
            - 100 * norm_cdf (- ((ln (100 / 100)
                                  + (5 / 100 + 1 / 2 * (2 / 10) ^ 2) * 1)
                                 / (2 / 10 * sqrt 1)))).
Proof.
  assert (H1 : 0 < S at_the_money) by (simpl; lra).
  assert (H2 : 0 < K at_the_money) by (simpl; lra).
  assert (H3 : 0 < sigma at_the_money) by (simpl; lra).
  assert (H4 : 0 < T at_the_money) by (simpl; lra).
  repeat split; try assumption.
  exact (proj2 (put_price_formula at_the_money H1 H2 H3) H4).
Defined.

(** ** Greeks *)

(** C5: with T <= 0, [delta_call] returns 1 if S > K else 0, [delta_put]
    returns -1 if S < K else 0, and gamma, vega, both thetas and both rhos
    return 0; with S = 110, K = 100 and T = 0, [call_price] returns
    exactly 10. *)
Theorem greeks_at_expiry (bs : t) :
  T bs <= 0 ->
  (K bs < S bs -> delta_call bs = Returned 1) /\
  (S bs <= K bs -> delta_call bs = Returned 0) /\
  (S bs < K bs -> delta_put bs = Returned (-1)) /\
  (K bs <= S bs -> delta_put bs = Returned 0) /\
  gamma bs = Returned 0 /\ vega bs = Returned 0 /\
  theta_call bs = Returned 0 /\ theta_put bs = Returned 0 /\
  rho_call bs = Returned 0 /\ rho_put bs = Returned 0 /\
  (S bs = 110 -> K bs = 100 -> T bs = 0 -> call_price bs = Returned 10).
Proof.
  intros HT.
  unfold delta_call, delta_put, gamma, vega, theta_call, theta_put,
    rho_call, rho_put, call_price.
  destruct (Rle_dec (T bs) 0) as [_|Hn]; [|contradiction].
  repeat split; try reflexivity.
  - intros H. destruct (Rgt_dec (S bs) (K bs)) as [_|Hn]; [reflexivity|].
    exfalso. apply Hn. exact H.
  - intros H. destruct (Rgt_dec (S bs) (K bs)) as [Hg|_]; [|reflexivity].
    exfalso. unfold Rgt in Hg. lra.
  - intros H. destruct (Rlt_dec (S bs) (K bs)) as [_|Hn]; [reflexivity|].
    contradiction.
  - intros H. destruct (Rlt_dec (S bs) (K bs)) as [Hl|_]; [|reflexivity].
    exfalso. lra.
  - intros HS HK _. rewrite HS, HK. unfold py_max.
    destruct (Rlt_dec 0 (110 - 100)) as [_|Hn]; [f_equal; lra|].
    exfalso. lra.
Qed.

Lemma greeks_at_expiry_witness :
  T at_expiry <= 0 /\
  delta_call at_expiry = Returned 1 /\ delta_put at_expiry = Returned 0 /\
  gamma at_expiry = Returned 0 /\ vega at_expiry = Returned 0 /\
  theta_call at_expiry = Returned 0 /\ theta_put at_expiry = Returned 0 /\
  rho_call at_expiry = Returned 0 /\ rho_put at_expiry = Returned 0 /\
  call_price at_expiry = Returned 10.
Proof.
  assert (HT : T at_expiry <= 0) by (simpl; lra).
  destruct (greeks_at_expiry at_expiry HT)
    as (Hdc & _ & _ & Hdp & Hg & Hv & Htc & Htp & Hrc & Hrp & Hc).
  repeat split; try assumption.
  - apply Hdc. simpl. lra.
  - apply Hdp. simpl. lra.
  - apply Hc; reflexivity.
Defined.

(** C6: with T > 0, on a snapshot of the data model (S > 0, K > 0,
    sigma > 0), [theta_call] returns
    (- S * phi(d1) * sigma / (2 * sqrt T) - r * K * exp(-r * T) * Phi(d2))
    divided by 365 and [theta_put] returns
    (- S * phi(d1) * sigma / (2 * sqrt T) + r * K * exp(-r * T) * Phi(-d2))
    divided by 365. *)
Theorem theta_daily (bs : t) :
  0 < S bs -> 0 < K bs -> 0 < sigma bs -> 0 < T bs ->
  let d1 := (ln (S bs / K bs) + (r bs + 1 / 2 * sigma bs ^ 2) * T bs)
            / (sigma bs * sqrt (T bs)) in
  let d2 := d1 - sigma bs * sqrt (T bs) in
  theta_call bs =
  Returned ((- (S bs * norm_pdf d1 * sigma bs / (2 * sqrt (T bs)))
             - r bs * K bs * exp (- (r bs * T bs)) * norm_cdf d2) / 365) /\
  theta_put bs =
  Returned ((- (S bs * norm_pdf d1 * sigma bs / (2 * sqrt (T bs)))
             + r bs * K bs * exp (- (r bs * T bs)) * norm_cdf (- d2)) / 365).
Proof.
  intros HS HK Hsig HT d1 d2.
  assert (HK0 : K bs <> 0) by lra.
  split; [unfold theta_call | unfold theta_put];
    alive HT HK0; fold d1; fold d2; rewrite exp_discount;
    f_equal; unfold Rdiv; ring.
Qed.

Lemma theta_daily_witness :
  0 < S at_the_money /\ 0 < K at_the_money /\ 0 < sigma at_the_money /\
  0 < T at_the_money /\
  let d1 := (ln (100 / 100) + (5 / 100 + 1 / 2 * (2 / 10) ^ 2) * 1)
            / (2 / 10 * sqrt 1) in
  let d2 := d1 - 2 / 10 * sqrt 1 in
  theta_call at_the_money =
  Returned ((- (100 * norm_pdf d1 * (2 / 10) / (2 * sqrt 1))
             - 5 / 100 * 100 * exp (- (5 / 100 * 1)) * norm_cdf d2) / 365) /\
  theta_put at_the_money =
  Returned ((- (100 * norm_pdf d1 * (2 / 10) / (2 * sqrt 1))
             + 5 / 100 * 100 * exp (- (5 / 100 * 1)) * norm_cdf (- d2)) / 365).
Proof.
  assert (H1 : 0 < S at_the_money) by (simpl; lra).
  assert (H2 : 0 < K at_the_money) by (simpl; lra).
  assert (H3 : 0 < sigma at_the_money) by (simpl; lra).
  assert (H4 : 0 < T at_the_money) by (simpl; lra).
  repeat split; try assumption;
    apply (theta_daily at_the_money H1 H2 H3 H4).
Defined.

(** ** Invalid parameters *)

(** C1, counterexample: on a snapshot with sigma = 0 and T = -1 (and
    S = 110, K = 100) [call_price] returns the intrinsic value 10 and
    signals no failure. *)
Lemma invalid_snapshot_priced :
  sigma past_expiry <= 0 /\ T past_expiry < 0 /\
  call_price past_expiry = Returned 10 /\
  forall e, call_price past_expiry <> Raised e.
Proof.
  assert (E : call_price past_expiry = Returned 10).
  { unfold call_price, py_max. simpl.
    destruct (Rle_dec (-1) 0) as [_|Hn]; [|exfalso; lra].
    destruct (Rlt_dec 0 (110 - 100)) as [_|Hn]; [f_equal; lra | exfalso; lra]. }
  repeat split; try (simpl; lra); try exact E.
  intros e He. rewrite E in He. discriminate He.
Qed.

(** C1, amended: with T <= 0 no input is rejected.  Whatever S, K, r and
    sigma are (so also with sigma <= 0, S <= 0, K <= 0) and for T < 0 as
    for T = 0, every pricing and Greek method signals no failure and
    returns its value at expiry: [call_price] max(0, S - K), [put_price]
    max(0, K - S), [delta_call] 1 if S > K else 0, [delta_put] -1 if
    S < K else 0, and the six other methods 0. *)
Theorem expired_snapshot_never_rejected (bs : t) :
  T bs <= 0 ->
  call_price bs = Returned (Rmax 0 (S bs - K bs)) /\
  put_price bs = Returned (Rmax 0 (K bs - S bs)) /\
  delta_call bs = Returned (if Rlt_dec (K bs) (S bs) then 1 else 0) /\
  delta_put bs = Returned (if Rlt_dec (S bs) (K bs) then -1 else 0) /\
  gamma bs = Returned 0 /\ vega bs = Returned 0 /\
  theta_call bs = Returned 0 /\ theta_put bs = Returned 0 /\
  rho_call bs = Returned 0 /\ rho_put bs = Returned 0 /\
  Forall (fun op => forall e, op bs <> Raised e) operations.
Proof.
  intros HT.
  assert (Hc : call_price bs = Returned (Rmax 0 (S bs - K bs))).
  { unfold call_price. destruct (Rle_dec (T bs) 0); [|contradiction].
    now rewrite py_max_Rmax. }
  assert (Hp : put_price bs = Returned (Rmax 0 (K bs - S bs))).
  { unfold put_price. destruct (Rle_dec (T bs) 0); [|contradiction].
    now rewrite py_max_Rmax. }
  assert (Hdc : delta_call bs
                = Returned (if Rlt_dec (K bs) (S bs) then 1 else 0)).
  { unfold delta_call. destruct (Rle_dec (T bs) 0); [|contradiction].
    destruct (Rgt_dec (S bs) (K bs)) as [Hg|Hg], (Rlt_dec (K bs) (S bs));
      try reflexivity; exfalso; unfold Rgt in Hg; lra. }
  assert (Hdp : delta_put bs
                = Returned (if Rlt_dec (S bs) (K bs) then -1 else 0)).
  { unfold delta_put. destruct (Rle_dec (T bs) 0); [|contradiction].
    reflexivity. }
  assert (Hg : gamma bs = Returned 0)
    by (unfold gamma; destruct (Rle_dec (T bs) 0); [reflexivity|contradiction]).
  assert (Hv : vega bs = Returned 0)
    by (unfold vega; destruct (Rle_dec (T bs) 0); [reflexivity|contradiction]).
  assert (Htc : theta_call bs = Returned 0)
    by (unfold theta_call; destruct (Rle_dec (T bs) 0);
        [reflexivity|contradiction]).
  assert (Htp : theta_put bs = Returned 0)
    by (unfold theta_put; destruct (Rle_dec (T bs) 0);
        [reflexivity|contradiction]).
  assert (Hrc : rho_call bs = Returned 0)
    by (unfold rho_call; destruct (Rle_dec (T bs) 0);
        [reflexivity|contradiction]).
  assert (Hrp : rho_put bs = Returned 0)
    by (unfold rho_put; destruct (Rle_dec (T bs) 0);
        [reflexivity|contradiction]).
  repeat (split; [assumption|]).
  unfold operations.
  repeat apply Forall_cons; try apply Forall_nil; intros e He;
    rewrite ?Hc, ?Hp, ?Hdc, ?Hdp, ?Hg, ?Hv, ?Htc, ?Htp, ?Hrc, ?Hrp in He;
    discriminate He.
Qed.

Lemma expired_snapshot_never_rejected_witness :
  (sigma past_expiry <= 0 /\ T past_expiry < 0 /\ T past_expiry <= 0) /\
  call_price past_expiry = Returned (Rmax 0 (110 - 100)) /\
  put_price past_expiry = Returned (Rmax 0 (100 - 110)) /\
  delta_call past_expiry = Returned (if Rlt_dec 100 110 then 1 else 0) /\
  delta_put past_expiry = Returned (if Rlt_dec 110 100 then -1 else 0) /\
  gamma past_expiry = Returned 0 /\ vega past_expiry = Returned 0 /\
  theta_call past_expiry = Returned 0 /\ theta_put past_expiry = Returned 0 /\
  rho_call past_expiry = Returned 0 /\ rho_put past_expiry = Returned 0 /\
  Forall (fun op => forall e, op past_expiry <> Raised e) operations.
Proof.
  assert (Hs : sigma past_expiry <= 0) by (simpl; lra).
  assert (Hn : T past_expiry < 0) by (simpl; lra).
  assert (HT : T past_expiry <= 0) by (simpl; lra).
  split; [repeat split; assumption|].
  exact (expired_snapshot_never_rejected past_expiry HT).
Defined.

(** ** The memoising variant *)

(** C9: the variant that obtains the pair (d1, d2) once and reads it in
    every method returns, method by method, what the given implementation
    returns, on every snapshot. *)
Theorem cached_pair_refines (bs : t) :
  Cached.call_price bs = call_price bs /\
  Cached.put_price bs = put_price bs /\
  Cached.delta_call bs = delta_call bs /\
  Cached.delta_put bs = delta_put bs /\
  Cached.gamma bs = gamma bs /\
  Cached.vega bs = vega bs /\
  Cached.theta_call bs = theta_call bs /\
  Cached.theta_put bs = theta_put bs /\
  Cached.rho_call bs = rho_call bs /\
  Cached.rho_put bs = rho_put bs.
Proof.
  unfold Cached.call_price, Cached.put_price, Cached.delta_call,
    Cached.delta_put, Cached.gamma, Cached.vega, Cached.theta_call,
    Cached.theta_put, Cached.rho_call, Cached.rho_put, Cached.d1_d2,
    call_price, put_price, delta_call, delta_put, gamma, vega,
    theta_call, theta_put, rho_call, rho_put, _d2.
  destruct (Rle_dec (T bs) 0); [repeat split|].
  destruct (_d1 bs) as [d1|e]; cbn [bind fst snd]; repeat split.
Qed.

(** ** The convenience function *)

(** C10: [calculate_option_price] returns what [call_price] does on the
    snapshot it builds when [option_type] equals "call" up to case, what
    [put_price] does when it equals "put" up to case, and raises
    [ValueError] for every other string. *)
Theorem calculate_option_price_dispatch
        (S0 K0 T0 r0 sigma0 : R) (option_type : string) :
  calculate_option_price S0 K0 T0 r0 sigma0 option_type =
  if eq_ignore_case option_type "call" then
    call_price (__init__ S0 K0 T0 r0 sigma0)
  else if eq_ignore_case option_type "put" then
    put_price (__init__ S0 K0 T0 r0 sigma0)
  else Raised ValueError.
Proof.
  unfold calculate_option_price.
  change "call"%string with (lower "call").
  change "put"%string with (lower "put").
  rewrite !lower_eq_ignore_case. reflexivity.
Qed.

(** ** Parity and bounds *)

(** C4: put-call parity.  With S > 0, K > 0, sigma > 0 and T > 0, the
    call price minus the put price is S - K * exp(-r * T), exactly. *)
Theorem put_call_parity (bs : t) :
  0 < S bs -> 0 < K bs -> 0 < sigma bs -> 0 < T bs ->
  exists c p,
    call_price bs = Returned c /\ put_price bs = Returned p /\
    c - p = S bs - K bs * exp (- (r bs * T bs)).
Proof.
  intros HS HK Hsig HT.
  assert (HK0 : K bs <> 0) by lra.
  unfold call_price, put_price. alive HT HK0.
  do 2 eexists. split; [reflexivity|]. split; [reflexivity|].
  rewrite !norm_cdf_sym, exp_discount. ring.
Qed.

Lemma put_call_parity_witness :
  0 < S at_the_money /\ 0 < K at_the_money /\ 0 < sigma at_the_money /\
  0 < T at_the_money /\
  exists c p,
    call_price at_the_money = Returned c /\
    put_price at_the_money = Returned p /\
    c - p = 100 - 100 * exp (- (5 / 100 * 1)).
Proof.
  assert (H1 : 0 < S at_the_money) by (simpl; lra).
  assert (H2 : 0 < K at_the_money) by (simpl; lra).
  assert (H3 : 0 < sigma at_the_money) by (simpl; lra).
  assert (H4 : 0 < T at_the_money) by (simpl; lra).
  repeat split; try assumption.
  exact (put_call_parity at_the_money H1 H2 H3 H4).
Defined.

(** C7: delta bounds.  On a snapshot with S > 0, K > 0 and sigma > 0,
    [delta_call] returns a value in [0, 1] and [delta_put] a value in
    [-1, 0], in the T <= 0 branch and in the T > 0 branch alike (so in
    particular for every T >= 0). *)
Theorem delta_bounds (bs : t) :
  0 < S bs -> 0 < K bs -> 0 < sigma bs ->
  (exists d, delta_call bs = Returned d /\ 0 <= d <= 1) /\
  (exists d, delta_put bs = Returned d /\ -1 <= d <= 0).
Proof.
  intros HS HK Hsig.
  assert (HK0 : K bs <> 0) by lra.
  unfold delta_call, delta_put.
  destruct (Rle_dec (T bs) 0) as [HT|HT].
  - split; eexists; (split; [reflexivity|]).
    + destruct (Rgt_dec (S bs) (K bs)); lra.
    + destruct (Rlt_dec (S bs) (K bs)); lra.
  - rewrite d1_returns by exact HK0. cbn [bind].
    split; eexists; (split; [reflexivity|]);
      match goal with
      | |- context [norm_cdf ?x] => pose proof (norm_cdf_range x)
      end; lra.
Qed.

Lemma delta_bounds_witness :
  (0 < S at_the_money /\ 0 < K at_the_money /\ 0 < sigma at_the_money) /\
  (exists d, delta_call at_the_money = Returned d /\ 0 <= d <= 1) /\
  (exists d, delta_put at_the_money = Returned d /\ -1 <= d <= 0).
Proof.
  assert (H1 : 0 < S at_the_money) by (simpl; lra).
  assert (H2 : 0 < K at_the_money) by (simpl; lra).
  assert (H3 : 0 < sigma at_the_money) by (simpl; lra).
  split; [repeat split; assumption|].
  exact (delta_bounds at_the_money H1 H2 H3).
Defined.

(** The dispatch on three sample strings, with the expiry snapshot. *)
Example calculate_upper_case_call :
  calculate_option_price 110 100 0 (5 / 100) (2 / 10) "CALL" = Returned 10.
Proof.
  unfold calculate_option_price.
  change (String.eqb (lower "CALL") "call") with true. cbv iota.
  unfold call_price, py_max. cbn [T S K].
  destruct (Rle_dec 0 0) as [_|Hn]; [|exfalso; lra].
  destruct (Rlt_dec 0 (110 - 100)) as [_|Hn]; [f_equal; lra | exfalso; lra].
Qed.

Example calculate_mixed_case_put :
  calculate_option_price 110 100 0 (5 / 100) (2 / 10) "Put" = Returned 0.
Proof.
  unfold calculate_option_price.
  change (String.eqb (lower "Put") "call") with false.
  change (String.eqb (lower "Put") "put") with true. cbv iota.
  unfold put_price, py_max. cbn [T S K].
  destruct (Rle_dec 0 0) as [_|Hn]; [|exfalso; lra].
  destruct (Rlt_dec 0 (100 - 110)) as [Hl|_]; [exfalso; lra | reflexivity].
Qed.

Example calculate_unknown_type :
  calculate_option_price 110 100 0 (5 / 100) (2 / 10) "straddle"
  = Raised ValueError.
Proof. reflexivity. Qed.

(** With T > 0 a zero strike makes the division [S / K] of [_d1] raise. *)
Example zero_strike_raises :
  call_price (__init__ 100 0 1 (5 / 100) (2 / 10)) = Raised ZeroDivisionError.
Proof.
  unfold call_price, _d1, py_truediv. cbn [T S K].
  destruct (Rle_dec 1 0) as [Hl|_]; [exfalso; lra|].
  destruct (Req_dec_T 0 0) as [_|Hn]; [reflexivity | contradiction].
Qed.

(** ** Monotonicity in the underlying price *)

Section Monotonicity.

Variables K0 T0 r0 sigma0 : R.
Hypothesis HK : 0 < K0.
Hypothesis HT : 0 < T0.
Hypothesis Hsig : 0 < sigma0.

(** d1 and the two prices of the T > 0 branch, as functions of the
    underlying price. *)
Let d1_at (s : R) : R :=
  (ln (s / K0) + (r0 + 1 / 2 * sigma0 ^ 2) * T0) / (sigma0 * sqrt T0).

Let call_at (s : R) : R :=
  s * norm_cdf (d1_at s)
  - K0 * exp (- r0 * T0) * norm_cdf (d1_at s - sigma0 * sqrt T0).

Let put_at (s : R) : R :=
  K0 * exp (- r0 * T0) * norm_cdf (- (d1_at s - sigma0 * sqrt T0))
  - s * norm_cdf (- d1_at s).

Lemma vol_sqrt_pos : 0 < sigma0 * sqrt T0.
Proof. apply Rmult_lt_0_compat; [exact Hsig | now apply sqrt_lt_R0]. Qed.

Lemma d1_at_deriv s :
  0 < s -> derivable_pt_lim d1_at s (/ s / (sigma0 * sqrt T0)).
Proof.
  intros Hs. pose proof vol_sqrt_pos as Hv.
  assert (Hq : 0 < sqrt T0) by now apply sqrt_lt_R0.
  unfold d1_at.
  apply (derivable_pt_lim_ext
           (fun x => / (sigma0 * sqrt T0)
                     * (ln (x * / K0) + (r0 + 1 / 2 * sigma0 ^ 2) * T0))).
  { intros x. unfold Rdiv. ring. }
  replace (/ s / (sigma0 * sqrt T0))
    with (/ (sigma0 * sqrt T0) * (/ (s * / K0) * (/ K0 * 1) + 0))
    by (field; repeat split; lra).
  apply derivable_pt_lim_scal.
  apply derivable_pt_lim_plus; [|apply derivable_pt_lim_const].
  apply (derivable_pt_lim_comp (fun x => x * / K0) ln).
  - rewrite <- (Rmult_comm 1).
    replace (1 * / K0) with (1 * / K0 + s * 0) by ring.
    apply (derivable_pt_lim_mult id (fun _ => / K0));
      [apply derivable_pt_lim_id | apply derivable_pt_lim_const].
  - apply derivable_pt_lim_ln. apply Rmult_lt_0_compat;
      [exact Hs | now apply Rinv_0_lt_compat].
Qed.

(** The two density terms of the derivative of the call cancel. *)
Lemma pdf_balance s :
  0 < s ->
  s * norm_pdf (d1_at s)
  = K0 * exp (- r0 * T0) * norm_pdf (d1_at s - sigma0 * sqrt T0).
Proof.
  intros Hs. pose proof vol_sqrt_pos as Hv. pose proof sqrt_2PI_pos as Hp.
  assert (Hsq : sqrt T0 * sqrt T0 = T0) by (apply sqrt_sqrt; lra).
  unfold norm_pdf.
  set (d := d1_at s). set (v := sigma0 * sqrt T0) in *.
  assert (Hdv : d * v = ln (s / K0) + (r0 + 1 / 2 * sigma0 ^ 2) * T0).
  { unfold d, d1_at. fold v. field. lra. }
  assert (Hvv : v * v = sigma0 ^ 2 * T0).
  { unfold v. replace (sigma0 * sqrt T0 * (sigma0 * sqrt T0))
      with (sigma0 ^ 2 * (sqrt T0 * sqrt T0)) by ring.
    now rewrite Hsq. }
  replace (- (d - v) ^ 2 / 2)
    with (- d ^ 2 / 2 + (ln (s / K0) + r0 * T0)).
  2:{ replace ((d - v) ^ 2) with (d ^ 2 - 2 * (d * v) + v * v) by ring.
      rewrite Hdv, Hvv. field. }
  rewrite !exp_plus, exp_ln by (apply Rdiv_lt_0_compat; lra).
  replace (- r0 * T0) with (- (r0 * T0)) by ring.
  rewrite exp_Ropp.
  pose proof (exp_pos (r0 * T0)). field. lra.
Qed.

(** The derivative of the call price in S is [norm_cdf d1], its delta. *)
Lemma call_at_deriv s :
  0 < s -> derivable_pt_lim call_at s (norm_cdf (d1_at s)).
Proof.
  intros Hs. pose proof vol_sqrt_pos as Hv.
  assert (Hq : 0 < sqrt T0) by now apply sqrt_lt_R0.
  pose proof (d1_at_deriv s Hs) as Hd.
  unfold call_at.
  replace (norm_cdf (d1_at s))
    with ((1 * norm_cdf (d1_at s)
           + s * (norm_pdf (d1_at s) * (/ s / (sigma0 * sqrt T0))))
          - K0 * exp (- r0 * T0)
            * (norm_pdf (d1_at s - sigma0 * sqrt T0)
               * (/ s / (sigma0 * sqrt T0) - 0))).
  2:{ pose proof (pdf_balance s Hs) as Hb.
      replace (K0 * exp (- r0 * T0)
               * (norm_pdf (d1_at s - sigma0 * sqrt T0)
                  * (/ s / (sigma0 * sqrt T0) - 0)))
        with (K0 * exp (- r0 * T0) * norm_pdf (d1_at s - sigma0 * sqrt T0)
              * (/ s / (sigma0 * sqrt T0))) by ring.
      rewrite <- Hb. field. repeat split; lra. }
  apply derivable_pt_lim_minus.
  - apply (derivable_pt_lim_mult id (fun x => norm_cdf (d1_at x)));
      [apply derivable_pt_lim_id|].
    apply (derivable_pt_lim_comp d1_at norm_cdf);
      [exact Hd | apply norm_cdf_deriv].
  - apply derivable_pt_lim_scal.
    apply (derivable_pt_lim_comp (fun x => d1_at x - sigma0 * sqrt T0) norm_cdf);
      [|apply norm_cdf_deriv].
    apply derivable_pt_lim_minus; [exact Hd | apply derivable_pt_lim_const].
Qed.

Lemma put_at_call_at s :
  put_at s = call_at s - s + K0 * exp (- r0 * T0).
Proof. unfold put_at, call_at. rewrite !norm_cdf_sym. ring. Qed.

Lemma call_at_monotone s1 s2 :
  0 < s1 -> s1 <= s2 ->
  call_at s1 <= call_at s2 /\ put_at s2 <= put_at s1.
Proof.
  intros H1 [Hlt|Heq]; [|subst; lra].
  destruct (MVT_cor2 call_at (fun x => norm_cdf (d1_at x)) s1 s2 Hlt)
    as [c [E Hc]].
  { intros c Hc. apply call_at_deriv. lra. }
  rewrite !put_at_call_at.
  pose proof (norm_cdf_range (d1_at c)) as Hr. nra.
Qed.

End Monotonicity.

(** C8: monotonicity in the underlying price.  For fixed K > 0, T >= 0,
    r and sigma > 0 and every pair 0 < S1 <= S2, the call price at S1 is
    at most the call price at S2 and the put price at S1 is at least the
    put price at S2. *)
Theorem price_monotone_in_underlying (S1 S2 K0 T0 r0 sigma0 : R) :
  0 < K0 -> 0 <= T0 -> 0 < sigma0 -> 0 < S1 -> S1 <= S2 ->
  exists c1 c2 p1 p2,
    call_price (__init__ S1 K0 T0 r0 sigma0) = Returned c1 /\
    call_price (__init__ S2 K0 T0 r0 sigma0) = Returned c2 /\
    put_price (__init__ S1 K0 T0 r0 sigma0) = Returned p1 /\
    put_price (__init__ S2 K0 T0 r0 sigma0) = Returned p2 /\
    c1 <= c2 /\ p2 <= p1.
Proof.
  intros HK HT Hsig HS1 HS.
  assert (HK0 : K0 <> 0) by lra.
  unfold call_price, put_price; cbn [T S K r sigma].
  destruct (Rle_dec T0 0) as [H0|H0].
  - do 4 eexists. repeat (split; [reflexivity|]).
    rewrite !py_max_Rmax. unfold Rmax.
    repeat match goal with
           | |- context [Rle_dec ?a ?b] => destruct (Rle_dec a b)
           end; lra.
  - assert (HT' : 0 < T0) by lra.
    rewrite !d1_returns, !d2_returns by exact HK0.
    cbn [bind T S K r sigma].
    do 4 eexists. repeat (split; [reflexivity|]).
    exact (call_at_monotone K0 T0 r0 sigma0 HK HT' Hsig S1 S2 HS1 HS).
Qed.

Lemma price_monotone_in_underlying_witness :
  (0 < 100 /\ 0 <= 1 /\ 0 < 2 / 10 /\ 0 < 90 /\ 90 <= 110) /\
  exists c1 c2 p1 p2,
    call_price (__init__ 90 100 1 (5 / 100) (2 / 10)) = Returned c1 /\
    call_price (__init__ 110 100 1 (5 / 100) (2 / 10)) = Returned c2 /\
    put_price (__init__ 90 100 1 (5 / 100) (2 / 10)) = Returned p1 /\
    put_price (__init__ 110 100 1 (5 / 100) (2 / 10)) = Returned p2 /\
    c1 <= c2 /\ p2 <= p1.
Proof.
  assert (H1 : 0 < 100) by lra.
  assert (H2 : 0 <= 1) by lra.
  assert (H3 : 0 < 2 / 10) by lra.
  assert (H4 : 0 < 90) by lra.
  assert (H5 : 90 <= 110) by lra.
  split; [repeat split; assumption|].
  exact (price_monotone_in_underlying 90 110 100 1 (5 / 100) (2 / 10)
           H1 H2 H3 H4 H5).
Defined.

End Engine.

(** * The prices as functions of the five parameters *)

(** The values the methods return in the T > 0 branch, read as functions
    of the five attributes, so that each can be varied on its own. *)
Definition d1_value (s k t rr sg : R) : R :=
  (ln (s / k) + (rr + 1 / 2 * sg ^ 2) * t) / (sg * sqrt t).

Definition call_value (s k t rr sg : R) : R :=
  s * norm_cdf (d1_value s k t rr sg)
  - k * exp (- rr * t) * norm_cdf (d1_value s k t rr sg - sg * sqrt t).

Definition put_value (s k t rr sg : R) : R :=
  k * exp (- rr * t) * norm_cdf (- (d1_value s k t rr sg - sg * sqrt t))
  - s * norm_cdf (- d1_value s k t rr sg).

Section Values.

Import BlackScholes.

Variables s k t rr sg : R.
Hypothesis Hk : k <> 0.
Hypothesis Ht : 0 < t.

Ltac live_branch :=
  cbn [T S K r sigma];
  match goal with
  | |- context [Rle_dec ?x 0] =>
      destruct (Rle_dec x 0) as [?|?]; [exfalso; lra|]
  end;
  rewrite ?d1_returns, ?d2_returns by exact Hk;
  cbn [bind T S K r sigma]; reflexivity.

Lemma call_price_value :
  call_price (__init__ s k t rr sg) = Returned (call_value s k t rr sg).
Proof. unfold call_price. live_branch. Qed.

Lemma put_price_value :
  put_price (__init__ s k t rr sg) = Returned (put_value s k t rr sg).
Proof. unfold put_price. live_branch. Qed.

Lemma delta_call_value :
  delta_call (__init__ s k t rr sg)
  = Returned (norm_cdf (d1_value s k t rr sg)).
Proof. unfold delta_call. live_branch. Qed.

Lemma delta_put_value :
  delta_put (__init__ s k t rr sg)
  = Returned (norm_cdf (d1_value s k t rr sg) - 1).
Proof. unfold delta_put. live_branch. Qed.

Lemma gamma_value :
  gamma (__init__ s k t rr sg)
  = Returned (norm_pdf (d1_value s k t rr sg) / (s * sg * sqrt t)).
Proof. unfold gamma. live_branch. Qed.

Lemma vega_value :
  vega (__init__ s k t rr sg)
  = Returned (s * norm_pdf (d1_value s k t rr sg) * sqrt t).
Proof. unfold vega. live_branch. Qed.

Lemma theta_call_value :
  theta_call (__init__ s k t rr sg)
  = Returned ((- s * norm_pdf (d1_value s k t rr sg) * sg / (2 * sqrt t)
               - rr * k * exp (- rr * t)
                 * norm_cdf (d1_value s k t rr sg - sg * sqrt t)) / 365).
Proof. unfold theta_call. live_branch. Qed.

Lemma theta_put_value :
  theta_put (__init__ s k t rr sg)
  = Returned ((- s * norm_pdf (d1_value s k t rr sg) * sg / (2 * sqrt t)
               + rr * k * exp (- rr * t)
                 * norm_cdf (- (d1_value s k t rr sg - sg * sqrt t))) / 365).
Proof. unfold theta_put. live_branch. Qed.

Lemma rho_call_value :
  rho_call (__init__ s k t rr sg)
  = Returned (k * t * exp (- rr * t)
              * norm_cdf (d1_value s k t rr sg - sg * sqrt t)).
Proof. unfold rho_call. live_branch. Qed.

Lemma rho_put_value :
  rho_put (__init__ s k t rr sg)
  = Returned (- k * t * exp (- rr * t)
              * norm_cdf (- (d1_value s k t rr sg - sg * sqrt t))).
Proof. unfold rho_put. live_branch. Qed.

(** The put is the call less the forward: parity on the values. *)
Lemma put_value_call_value :
  put_value s k t rr sg = call_value s k t rr sg - s + k * exp (- rr * t).
Proof. unfold put_value, call_value. rewrite !norm_cdf_sym. ring. Qed.

End Values.

(** The density terms balance: S * phi(d1) = K * exp(-r T) * phi(d2). *)
Lemma pdf_balance_value (s k t rr sg : R) :
  0 < s -> 0 < k -> 0 < t -> 0 < sg ->
  s * norm_pdf (d1_value s k t rr sg)
  = k * exp (- rr * t) * norm_pdf (d1_value s k t rr sg - sg * sqrt t).
Proof.
  intros Hs Hk Ht Hsg. exact (pdf_balance k t rr sg Hk Ht Hsg s Hs).
Qed.

(** ** Derivative of an expression of the Black-Scholes form *)

(** For s(x) * Phi(d(x)) - e(x) * Phi(d(x) - w(x)) with balanced density
    terms at x, the derivative of [d] drops out. *)
Lemma balanced_form_deriv (fs fe fd fw : R -> R) (x s' e' d' w' : R) :
  derivable_pt_lim fs x s' -> derivable_pt_lim fe x e' ->
  derivable_pt_lim fd x d' -> derivable_pt_lim fw x w' ->
  fs x * norm_pdf (fd x) = fe x * norm_pdf (fd x - fw x) ->
  derivable_pt_lim
    (fun y => fs y * norm_cdf (fd y) - fe y * norm_cdf (fd y - fw y)) x
    (s' * norm_cdf (fd x) - e' * norm_cdf (fd x - fw x)
     + fs x * norm_pdf (fd x) * w').
Proof.
  intros Hs He Hd Hw Hbal.
  replace (s' * norm_cdf (fd x) - e' * norm_cdf (fd x - fw x)
           + fs x * norm_pdf (fd x) * w')
    with ((s' * norm_cdf (fd x) + fs x * (norm_pdf (fd x) * d'))
          - (e' * norm_cdf (fd x - fw x)
             + fe x * (norm_pdf (fd x - fw x) * (d' - w')))).
  2:{ replace (fe x * (norm_pdf (fd x - fw x) * (d' - w')))
        with (fe x * norm_pdf (fd x - fw x) * (d' - w')) by ring.
      rewrite <- Hbal. ring. }
  apply derivable_pt_lim_minus.
  - apply (derivable_pt_lim_mult fs (fun y => norm_cdf (fd y))); [exact Hs|].
    apply (derivable_pt_lim_comp fd norm_cdf); [exact Hd | apply norm_cdf_deriv].
  - apply (derivable_pt_lim_mult fe (fun y => norm_cdf (fd y - fw y)));
      [exact He|].
    apply (derivable_pt_lim_comp (fun y => fd y - fw y) norm_cdf);
      [|apply norm_cdf_deriv].
    apply derivable_pt_lim_minus; assumption.
Qed.

(** ** How d1 and the discount factor move with each parameter *)

Lemma d1_value_derivable_sigma (s k t rr sg : R) :
  0 < t -> 0 < sg ->
  exists d', derivable_pt_lim (fun x => d1_value s k t rr x) sg d'.
Proof.
  intros Ht Hsg.
  assert (Hq : 0 < sqrt t) by now apply sqrt_lt_R0.
  eexists. unfold d1_value.
  apply (derivable_pt_lim_div
           (fun x => ln (s / k) + (rr + 1 / 2 * x ^ 2) * t)
           (fun x => x * sqrt t)).
  - apply (derivable_pt_lim_plus (fun _ => ln (s / k))
                                 (fun x => (rr + 1 / 2 * x ^ 2) * t));
      [apply derivable_pt_lim_const|].
    apply (derivable_pt_lim_mult (fun x => rr + 1 / 2 * x ^ 2) (fun _ => t));
      [|apply derivable_pt_lim_const].
    apply (derivable_pt_lim_plus (fun _ => rr) (fun x => 1 / 2 * x ^ 2));
      [apply derivable_pt_lim_const|].
    apply derivable_pt_lim_scal, derivable_pt_lim_pow.
  - apply (derivable_pt_lim_mult id (fun _ => sqrt t));
      [apply derivable_pt_lim_id | apply derivable_pt_lim_const].
  - apply Rgt_not_eq, Rmult_lt_0_compat; assumption.
Qed.

Lemma d1_value_derivable_r (s k t rr sg : R) :
  exists d', derivable_pt_lim (fun x => d1_value s k t x sg) rr d'.
Proof.
  eexists. unfold d1_value.
  apply derivable_pt_lim_div_scal.
  apply (derivable_pt_lim_plus (fun _ => ln (s / k))
                               (fun x => (x + 1 / 2 * sg ^ 2) * t));
    [apply derivable_pt_lim_const|].
  apply (derivable_pt_lim_mult (fun x => x + 1 / 2 * sg ^ 2) (fun _ => t));
    [|apply derivable_pt_lim_const].
  apply (derivable_pt_lim_plus id (fun _ => 1 / 2 * sg ^ 2));
    [apply derivable_pt_lim_id | apply derivable_pt_lim_const].
Qed.

Lemma vol_sqrt_deriv (t sg : R) :
  0 < t -> derivable_pt_lim (fun x => sg * sqrt x) t (sg * / (2 * sqrt t)).
Proof.
  intros Ht. apply derivable_pt_lim_scal. now apply derivable_pt_lim_sqrt.
Qed.

Lemma d1_value_derivable_T (s k t rr sg : R) :
  0 < t -> 0 < sg ->
  exists d', derivable_pt_lim (fun x => d1_value s k x rr sg) t d'.
Proof.
  intros Ht Hsg.
  assert (Hq : 0 < sqrt t) by now apply sqrt_lt_R0.
  eexists. unfold d1_value.
  apply (derivable_pt_lim_div
           (fun x => ln (s / k) + (rr + 1 / 2 * sg ^ 2) * x)
           (fun x => sg * sqrt x)).
  - apply (derivable_pt_lim_plus (fun _ => ln (s / k))
                                 (fun x => (rr + 1 / 2 * sg ^ 2) * x));
      [apply derivable_pt_lim_const|].
    apply derivable_pt_lim_scal, derivable_pt_lim_id.
  - now apply vol_sqrt_deriv.
  - apply Rgt_not_eq, Rmult_lt_0_compat; assumption.
Qed.

Lemma discount_deriv_r (k t rr : R) :
  derivable_pt_lim (fun x => k * exp (- x * t)) rr (- (k * t * exp (- rr * t))).
Proof.
  replace (- (k * t * exp (- rr * t))) with (k * (exp (- rr * t) * (- 1 * t + - rr * 0)))
    by ring.
  apply derivable_pt_lim_scal.
  apply (derivable_pt_lim_comp (fun x => - x * t) exp);
    [|apply derivable_pt_lim_exp].
  apply (derivable_pt_lim_mult (fun x => - x) (fun _ => t));
    [|apply derivable_pt_lim_const].
  apply (derivable_pt_lim_opp id), derivable_pt_lim_id.
Qed.

Lemma discount_deriv_T (k t rr : R) :
  derivable_pt_lim (fun x => k * exp (- rr * x)) t (- (rr * k * exp (- rr * t))).
Proof.
  replace (- (rr * k * exp (- rr * t))) with (k * (exp (- rr * t) * (- rr * 1)))
    by ring.
  apply derivable_pt_lim_scal.
  apply (derivable_pt_lim_comp (fun x => - rr * x) exp);
    [|apply derivable_pt_lim_exp].
  apply derivable_pt_lim_scal, derivable_pt_lim_id.
Qed.

(** ** The partial derivatives of the call and put values *)

Section Partials.

Variables s k t rr sg : R.
Hypothesis Hs : 0 < s.
Hypothesis Hk : 0 < k.
Hypothesis Ht : 0 < t.
Hypothesis Hsg : 0 < sg.

Lemma call_value_deriv_S :
  derivable_pt_lim (fun x => call_value x k t rr sg) s
                   (norm_cdf (d1_value s k t rr sg)).
Proof. exact (call_at_deriv k t rr sg Hk Ht Hsg s Hs). Qed.

Lemma call_value_deriv_sigma :
  derivable_pt_lim (fun x => call_value s k t rr x) sg
                   (s * norm_pdf (d1_value s k t rr sg) * sqrt t).
Proof.
  destruct (d1_value_derivable_sigma s k t rr sg Ht Hsg) as [d' Hd].
  pose proof (balanced_form_deriv
                (fun _ => s) (fun _ => k * exp (- rr * t))
                (fun x => d1_value s k t rr x) (fun x => x * sqrt t)
                sg 0 0 d' (1 * sqrt t + sg * 0)
                (derivable_pt_lim_const s sg)
                (derivable_pt_lim_const (k * exp (- rr * t)) sg) Hd) as H.
  cbv beta in H.
  replace (s * norm_pdf (d1_value s k t rr sg) * sqrt t)
    with (0 * norm_cdf (d1_value s k t rr sg)
          - 0 * norm_cdf (d1_value s k t rr sg - sg * sqrt t)
          + s * norm_pdf (d1_value s k t rr sg) * (1 * sqrt t + sg * 0))
    by ring.
  apply H.
  - apply (derivable_pt_lim_mult id (fun _ => sqrt t));
      [apply derivable_pt_lim_id | apply derivable_pt_lim_const].
  - now apply pdf_balance_value.
Qed.

Lemma call_value_deriv_r :
  derivable_pt_lim (fun x => call_value s k t x sg) rr
                   (k * t * exp (- rr * t)
                    * norm_cdf (d1_value s k t rr sg - sg * sqrt t)).
Proof.
  destruct (d1_value_derivable_r s k t rr sg) as [d' Hd].
  pose proof (balanced_form_deriv
                (fun _ => s) (fun x => k * exp (- x * t))
                (fun x => d1_value s k t x sg) (fun _ => sg * sqrt t)
                rr 0 (- (k * t * exp (- rr * t))) d' 0
                (derivable_pt_lim_const s rr)
                (discount_deriv_r k t rr) Hd
                (derivable_pt_lim_const (sg * sqrt t) rr)) as H.
  cbv beta in H.
  replace (k * t * exp (- rr * t)
           * norm_cdf (d1_value s k t rr sg - sg * sqrt t))
    with (0 * norm_cdf (d1_value s k t rr sg)
          - - (k * t * exp (- rr * t))
            * norm_cdf (d1_value s k t rr sg - sg * sqrt t)
          + s * norm_pdf (d1_value s k t rr sg) * 0)
    by ring.
  apply H. now apply pdf_balance_value.
Qed.

Lemma call_value_deriv_T :
  derivable_pt_lim (fun x => call_value s k x rr sg) t
                   (s * norm_pdf (d1_value s k t rr sg) * sg / (2 * sqrt t)
                    + rr * k * exp (- rr * t)
                      * norm_cdf (d1_value s k t rr sg - sg * sqrt t)).
Proof.
  destruct (d1_value_derivable_T s k t rr sg Ht Hsg) as [d' Hd].
  pose proof (balanced_form_deriv
                (fun _ => s) (fun x => k * exp (- rr * x))
                (fun x => d1_value s k x rr sg) (fun x => sg * sqrt x)
                t 0 (- (rr * k * exp (- rr * t))) d' (sg * / (2 * sqrt t))
                (derivable_pt_lim_const s t)
                (discount_deriv_T k t rr) Hd
                (vol_sqrt_deriv t sg Ht)) as H.
  cbv beta in H.
  replace (s * norm_pdf (d1_value s k t rr sg) * sg / (2 * sqrt t)
           + rr * k * exp (- rr * t)
             * norm_cdf (d1_value s k t rr sg - sg * sqrt t))
    with (0 * norm_cdf (d1_value s k t rr sg)
          - - (rr * k * exp (- rr * t))
            * norm_cdf (d1_value s k t rr sg - sg * sqrt t)
          + s * norm_pdf (d1_value s k t rr sg) * (sg * / (2 * sqrt t)))
    by (unfold Rdiv; ring).
  apply H. now apply pdf_balance_value.
Qed.

End Partials.

Section PutPartials.

Variables s k t rr sg : R.
Hypothesis Hs : 0 < s.
Hypothesis Hk : 0 < k.
Hypothesis Ht : 0 < t.
Hypothesis Hsg : 0 < sg.

Lemma put_value_deriv_S :
  derivable_pt_lim (fun x => put_value x k t rr sg) s
                   (norm_cdf (d1_value s k t rr sg) - 1).
Proof.
  apply (derivable_pt_lim_ext
           (fun x => call_value x k t rr sg - x + k * exp (- rr * t))).
  { intros x. symmetry. apply put_value_call_value. }
  replace (norm_cdf (d1_value s k t rr sg) - 1)
    with (norm_cdf (d1_value s k t rr sg) - 1 + 0) by ring.
  apply derivable_pt_lim_plus; [|apply derivable_pt_lim_const].
  apply derivable_pt_lim_minus;
    [now apply call_value_deriv_S | apply derivable_pt_lim_id].
Qed.

Lemma put_value_deriv_sigma :
  derivable_pt_lim (fun x => put_value s k t rr x) sg
                   (s * norm_pdf (d1_value s k t rr sg) * sqrt t).
Proof.
  apply (derivable_pt_lim_ext
           (fun x => call_value s k t rr x - s + k * exp (- rr * t))).
  { intros x. symmetry. apply put_value_call_value. }
  replace (s * norm_pdf (d1_value s k t rr sg) * sqrt t)
    with (s * norm_pdf (d1_value s k t rr sg) * sqrt t - 0 + 0) by ring.
  apply derivable_pt_lim_plus; [|apply derivable_pt_lim_const].
  apply derivable_pt_lim_minus;
    [now apply call_value_deriv_sigma | apply derivable_pt_lim_const].
Qed.

Lemma put_value_deriv_r :
  derivable_pt_lim (fun x => put_value s k t x sg) rr
                   (- k * t * exp (- rr * t)
                    * norm_cdf (- (d1_value s k t rr sg - sg * sqrt t))).
Proof.
  apply (derivable_pt_lim_ext
           (fun x => call_value s k t x sg - s + k * exp (- x * t))).
  { intros x. symmetry. apply put_value_call_value. }
  replace (- k * t * exp (- rr * t)
           * norm_cdf (- (d1_value s k t rr sg - sg * sqrt t)))
    with (k * t * exp (- rr * t)
          * norm_cdf (d1_value s k t rr sg - sg * sqrt t)
          - 0 + - (k * t * exp (- rr * t)))
    by (rewrite norm_cdf_sym; ring).
  apply derivable_pt_lim_plus; [|apply discount_deriv_r].
  apply derivable_pt_lim_minus;
    [now apply call_value_deriv_r | apply derivable_pt_lim_const].
Qed.

Lemma put_value_deriv_T :
  derivable_pt_lim (fun x => put_value s k x rr sg) t
                   (s * norm_pdf (d1_value s k t rr sg) * sg / (2 * sqrt t)
                    - rr * k * exp (- rr * t)
                      * norm_cdf (- (d1_value s k t rr sg - sg * sqrt t))).
Proof.
  apply (derivable_pt_lim_ext
           (fun x => call_value s k x rr sg - s + k * exp (- rr * x))).
  { intros x. symmetry. apply put_value_call_value. }
  replace (s * norm_pdf (d1_value s k t rr sg) * sg / (2 * sqrt t)
           - rr * k * exp (- rr * t)
             * norm_cdf (- (d1_value s k t rr sg - sg * sqrt t)))
    with (s * norm_pdf (d1_value s k t rr sg) * sg / (2 * sqrt t)
          + rr * k * exp (- rr * t)
            * norm_cdf (d1_value s k t rr sg - sg * sqrt t)
          - 0 + - (rr * k * exp (- rr * t)))
    by (rewrite norm_cdf_sym; ring).
  apply derivable_pt_lim_plus; [|apply discount_deriv_T].
  apply derivable_pt_lim_minus;
    [now apply call_value_deriv_T | apply derivable_pt_lim_const].
Qed.

End PutPartials.

(** ** Monotonicity and tails of the distribution function *)

Lemma norm_cdf_increasing x y : x < y -> norm_cdf x < norm_cdf y.
Proof.
  intros Hxy.
  destruct (MVT_cor2 norm_cdf norm_pdf x y Hxy (fun c _ => norm_cdf_deriv c))
    as [c [E _]].
  pose proof (norm_pdf_pos c) as Hp.
  assert (0 < norm_pdf c * (y - x)) by (apply Rmult_lt_0_compat; lra).
  lra.
Qed.

Lemma norm_cdf_monotone x y : x <= y -> norm_cdf x <= norm_cdf y.
Proof.
  intros [H|H]; [left; now apply norm_cdf_increasing | subst; lra].
Qed.

Lemma norm_cdf_strict_range x : 0 < norm_cdf x < 1.
Proof.
  pose proof (norm_cdf_range (x - 1)) as Hl.
  pose proof (norm_cdf_range (x + 1)) as Hu.
  assert (H1 : norm_cdf (x - 1) < norm_cdf x) by (apply norm_cdf_increasing; lra).
  assert (H2 : norm_cdf x < norm_cdf (x + 1)) by (apply norm_cdf_increasing; lra).
  lra.
Qed.

Lemma kern_int_le x : kern_int x <= exp (- x ^ 2 / 2).
Proof.
  pose proof (integral_bound (kern x) (kern_continuity x) 0 1
                (exp (- x ^ 2 / 2))) as HB.
  assert (H : Rabs (kern_int x) <= exp (- x ^ 2 / 2) * (1 - 0)).
  { apply HB; [lra|]. intros u _.
    pose proof (one_plus_sq_pos u) as Hu. unfold kern.
    pose proof (exp_pos (- (1 + u * u) / 2 * (x * x))) as He.
    rewrite Rabs_pos_eq by (apply Rlt_le, Rdiv_lt_0_compat; assumption).
    apply Rle_trans with (exp (- (1 + u * u) / 2 * (x * x))).
    - apply Rmult_le_reg_r with (1 + u * u); [assumption|].
      unfold Rdiv. rewrite Rmult_assoc, Rinv_l by lra. nra.
    - assert (Hle : - (1 + u * u) / 2 * (x * x) <= - x ^ 2 / 2) by nra.
      destruct Hle as [Hlt|Heq];
        [left; now apply exp_increasing | rewrite Heq; lra]. }
  pose proof (Rle_abs (kern_int x)). lra.
Qed.

Lemma gauss_int_nonneg x : 0 <= x -> 0 <= gauss_int x.
Proof.
  intros Hx. apply integral_nonneg; [assumption|].
  intros u _. unfold gauss. left. apply exp_pos.
Qed.

(** The upper tail of the law is below the Gaussian envelope. *)
Lemma norm_cdf_upper_tail x : 0 <= x -> 1 - norm_cdf x <= exp (- x ^ 2 / 2).
Proof.
  intros Hx.
  rewrite norm_cdf_gauss, sqrt_2PI_half.
  pose proof (gauss_int_sq x) as Esq. pose proof (kern_int_le x) as HJ.
  pose proof (gauss_int_nonneg x Hx) as HI.
  pose proof (gauss_int_bound x) as HB. rewrite Rabs_pos_eq in HB by assumption.
  pose proof PI2_1 as Hpi.
  assert (Hs : 0 < sqrt (PI / 2)) by (apply sqrt_lt_R0; lra).
  assert (Hss : sqrt (PI / 2) * sqrt (PI / 2) = PI / 2) by (apply sqrt_sqrt; lra).
  set (sq := sqrt (PI / 2)) in *. set (I := gauss_int x) in *.
  set (E := exp (- x ^ 2 / 2)) in *.
  assert (HE : 0 < E) by apply exp_pos.
  replace (1 - (1 / 2 + / (2 * sq) * I)) with ((sq - I) / (2 * sq))
    by (field; lra).
  apply Rmult_le_reg_r with (2 * sq); [lra|].
  unfold Rdiv. rewrite Rmult_assoc, Rinv_l by lra.
  assert (H1 : (sq - I) * sq <= 2 * E) by nra.
  assert (H2 : 1 < sq * sq) by lra.
  assert (H3 : 1 < sq) by nra.
  nra.
Qed.

Lemma norm_cdf_lower_tail x : 0 <= x -> norm_cdf (- x) <= exp (- x ^ 2 / 2).
Proof.
  intros Hx. rewrite norm_cdf_sym. now apply norm_cdf_upper_tail.
Qed.

(** Far enough to the left the distribution function is as small as
    wanted. *)
Lemma norm_cdf_vanishes eps :
  0 < eps -> exists x, 1 <= x /\ norm_cdf (- x) <= eps.
Proof.
  intros Heps. exists (1 + 2 / eps).
  assert (Hq : 0 < 2 / eps) by (apply Rdiv_lt_0_compat; lra).
  split; [lra|].
  eapply Rle_trans; [apply norm_cdf_lower_tail; lra|].
  set (x := 1 + 2 / eps).
  assert (Hx : 1 < x) by (unfold x; lra).
  replace (- x ^ 2 / 2) with (- (x ^ 2 / 2)) by field.
  rewrite exp_Ropp.
  pose proof (exp_ineq1_le (x ^ 2 / 2)) as He.
  assert (Hxx : x <= x ^ 2 / 2 + 1) by nra.
  assert (Hex : x <= exp (x ^ 2 / 2)) by lra.
  assert (Hie : / exp (x ^ 2 / 2) <= / x)
    by (apply Rinv_le_contravar; lra).
  apply Rle_trans with (/ x); [assumption|].
  assert (Hxe : 2 / eps < x) by (unfold x; lra).
  apply Rmult_le_reg_r with x; [lra|].
  rewrite Rinv_l by lra.
  assert (2 / eps * eps = 2) by (field; lra).
  nra.
Qed.

(** ** Signs of the values *)

Lemma ln_monotone x y : 0 < x -> x <= y -> ln x <= ln y.
Proof.
  intros Hx [H|H]; [left; now apply ln_increasing | subst; lra].
Qed.

Lemma call_value_nonneg (s k t rr sg : R) :
  0 < s -> 0 < k -> 0 < t -> 0 < sg -> 0 <= call_value s k t rr sg.
Proof.
  intros Hs Hk Ht Hsg.
  apply Rle_plus_epsilon. intros eps Heps.
  set (c := k * exp (- rr * t)).
  assert (Hc : 0 < c) by (apply Rmult_lt_0_compat; [assumption | apply exp_pos]).
  destruct (norm_cdf_vanishes (eps / c)) as [x [Hx1 Hx]];
    [apply Rdiv_lt_0_compat; assumption|].
  set (v := sg * sqrt t).
  assert (Hv : 0 < v)
    by (apply Rmult_lt_0_compat; [assumption | now apply sqrt_lt_R0]).
  set (m := (rr + 1 / 2 * sg ^ 2) * t).
  set (L := (v - x) * v - m).
  set (s' := Rmin s (k * exp L)).
  assert (HkL : 0 < k * exp L)
    by (apply Rmult_lt_0_compat; [assumption | apply exp_pos]).
  assert (Hs' : 0 < s') by (unfold s'; now apply Rmin_pos).
  assert (Hle : s' <= s) by apply Rmin_l.
  assert (Hln : ln (s' / k) <= L).
  { rewrite <- (ln_exp L). apply ln_monotone.
    - now apply Rdiv_lt_0_compat.
    - apply Rmult_le_reg_r with k; [assumption|].
      unfold Rdiv. rewrite Rmult_assoc, Rinv_l by lra.
      rewrite Rmult_1_r, (Rmult_comm (exp L)). apply Rmin_r. }
  assert (Hd2 : d1_value s' k t rr sg - v <= - x).
  { unfold d1_value. fold v. fold m.
    apply Rle_trans with ((L + m) / v - v).
    - apply Rplus_le_compat_r. unfold Rdiv.
      apply Rmult_le_compat_r; [left; now apply Rinv_0_lt_compat | lra].
    - right. unfold L. field. lra. }
  pose proof (proj1 (call_at_monotone k t rr sg Hk Ht Hsg s' s Hs' Hle)) as Hmono.
  change (call_value s' k t rr sg <= call_value s k t rr sg) in Hmono.
  assert (Hlow : - eps <= call_value s' k t rr sg).
  { unfold call_value. fold v. fold c.
    pose proof (norm_cdf_range (d1_value s' k t rr sg)) as Hr1.
    pose proof (norm_cdf_monotone _ _ Hd2) as Hm2.
    assert (Hce : c * norm_cdf (d1_value s' k t rr sg - v) <= eps).
    { apply Rle_trans with (c * (eps / c)).
      - apply Rmult_le_compat_l; lra.
      - right. field. lra. }
    assert (0 <= s' * norm_cdf (d1_value s' k t rr sg))
      by (apply Rmult_le_pos; lra).
    lra. }
  lra.
Qed.

(** Put-call duality: the put is the call with the underlying and the
    discounted strike exchanged, at a zero rate. *)
Lemma put_value_dual (s k t rr sg : R) :
  0 < s -> 0 < k -> 0 < t -> 0 < sg ->
  put_value s k t rr sg = call_value (k * exp (- rr * t)) s t 0 sg.
Proof.
  intros Hs Hk Ht Hsg.
  assert (Hq : 0 < sqrt t) by now apply sqrt_lt_R0.
  assert (Hsq : sqrt t * sqrt t = t) by (apply sqrt_sqrt; lra).
  assert (Hln : ln (k * exp (- rr * t) / s) = - ln (s / k) - rr * t).
  { unfold Rdiv.
    rewrite !ln_mult, !ln_Rinv, ln_exp; try assumption;
      try apply exp_pos; try (now apply Rinv_0_lt_compat).
    - ring.
    - apply Rmult_lt_0_compat; [assumption | apply exp_pos]. }
  assert (E1 : d1_value (k * exp (- rr * t)) s t 0 sg
               = - (d1_value s k t rr sg - sg * sqrt t)).
  { unfold d1_value. rewrite Hln.
    replace (- ((ln (s / k) + (rr + 1 / 2 * sg ^ 2) * t) / (sg * sqrt t)
                - sg * sqrt t))
      with ((- ln (s / k) - (rr + 1 / 2 * sg ^ 2) * t
             + sg ^ 2 * (sqrt t * sqrt t)) / (sg * sqrt t))
      by (field; lra).
    rewrite Hsq. field. lra. }
  unfold put_value, call_value. rewrite E1.
  replace (- (d1_value s k t rr sg - sg * sqrt t) - sg * sqrt t)
    with (- d1_value s k t rr sg) by ring.
  replace (- 0 * t) with 0 by ring. rewrite exp_0. ring.
Qed.

Lemma put_value_nonneg (s k t rr sg : R) :
  0 < s -> 0 < k -> 0 < t -> 0 < sg -> 0 <= put_value s k t rr sg.
Proof.
  intros Hs Hk Ht Hsg. rewrite put_value_dual by assumption.
  apply call_value_nonneg; try assumption.
  apply Rmult_lt_0_compat; [assumption | apply exp_pos].
Qed.

(** The call and put values are increasing in the volatility. *)
Lemma values_increasing_in_volatility (s k t rr sg1 sg2 : R) :
  0 < s -> 0 < k -> 0 < t -> 0 < sg1 -> sg1 < sg2 ->
  call_value s k t rr sg1 < call_value s k t rr sg2 /\
  put_value s k t rr sg1 < put_value s k t rr sg2.
Proof.
  intros Hs Hk Ht Hs1 Hlt.
  assert (Hq : 0 < sqrt t) by now apply sqrt_lt_R0.
  destruct (MVT_cor2 (fun x => call_value s k t rr x)
              (fun x => s * norm_pdf (d1_value s k t rr x) * sqrt t)
              sg1 sg2 Hlt) as [c [E Hc]].
  { intros c Hc. apply call_value_deriv_sigma; lra. }
  pose proof (norm_pdf_pos (d1_value s k t rr c)) as Hp.
  assert (Hv : 0 < s * norm_pdf (d1_value s k t rr c) * sqrt t)
    by (apply Rmult_lt_0_compat; [apply Rmult_lt_0_compat|]; assumption).
  assert (Hgain : 0 < s * norm_pdf (d1_value s k t rr c) * sqrt t
                      * (sg2 - sg1))
    by (apply Rmult_lt_0_compat; lra).
  rewrite !put_value_call_value. lra.
Qed.

(** * The Greeks as derivatives of the prices *)

Section Sensitivities.

Import BlackScholes.

(** X1: on a snapshot with S, K, sigma, T > 0, what [delta_call] and
    [delta_put] return are the derivatives, in the underlying price S,
    of what [call_price] and [put_price] return. *)
Theorem delta_is_price_slope (bs : t) :
  0 < S bs -> 0 < K bs -> 0 < sigma bs -> 0 < T bs ->
  exists (call put : R -> R) (dc dp : R),
    (forall s, 0 < s ->
       call_price (__init__ s (K bs) (T bs) (r bs) (sigma bs))
       = Returned (call s)) /\
    (forall s, 0 < s ->
       put_price (__init__ s (K bs) (T bs) (r bs) (sigma bs))
       = Returned (put s)) /\
    delta_call bs = Returned dc /\ delta_put bs = Returned dp /\
    derivable_pt_lim call (S bs) dc /\ derivable_pt_lim put (S bs) dp.
Proof.
  destruct bs as [s k t0 rr sg]; cbn [S K T r sigma].
  intros Hs Hk Hsg Ht. assert (Hk0 : k <> 0) by lra.
  exists (fun x => call_value x k t0 rr sg), (fun x => put_value x k t0 rr sg).
  do 2 eexists.
  split; [intros; now apply call_price_value|].
  split; [intros; now apply put_price_value|].
  split; [now apply delta_call_value|].
  split; [now apply delta_put_value|].
  split; [now apply call_value_deriv_S | now apply put_value_deriv_S].
Qed.

Lemma delta_is_price_slope_witness :
  (0 < S at_the_money /\ 0 < K at_the_money /\ 0 < sigma at_the_money
   /\ 0 < T at_the_money) /\
  exists (call put : R -> R) (dc dp : R),
    (forall s, 0 < s ->
       call_price (__init__ s 100 1 (5 / 100) (2 / 10)) = Returned (call s)) /\
    (forall s, 0 < s ->
       put_price (__init__ s 100 1 (5 / 100) (2 / 10)) = Returned (put s)) /\
    delta_call at_the_money = Returned dc /\
    delta_put at_the_money = Returned dp /\
    derivable_pt_lim call 100 dc /\ derivable_pt_lim put 100 dp.
Proof.
  assert (H1 : 0 < S at_the_money) by (simpl; lra).
  assert (H2 : 0 < K at_the_money) by (simpl; lra).
  assert (H3 : 0 < sigma at_the_money) by (simpl; lra).
  assert (H4 : 0 < T at_the_money) by (simpl; lra).
  split; [repeat split; assumption|].
  exact (delta_is_price_slope at_the_money H1 H2 H3 H4).
Defined.

(** X2: on such a snapshot, what [gamma] returns is the derivative in S
    of what [delta_call] returns, and of what [delta_put] returns. *)
Theorem gamma_is_delta_slope (bs : t) :
  0 < S bs -> 0 < K bs -> 0 < sigma bs -> 0 < T bs ->
  exists (dcall dput : R -> R) (g : R),
    (forall s, 0 < s ->
       delta_call (__init__ s (K bs) (T bs) (r bs) (sigma bs))
       = Returned (dcall s)) /\
    (forall s, 0 < s ->
       delta_put (__init__ s (K bs) (T bs) (r bs) (sigma bs))
       = Returned (dput s)) /\
    gamma bs = Returned g /\
    derivable_pt_lim dcall (S bs) g /\ derivable_pt_lim dput (S bs) g.
Proof.
  destruct bs as [s k t0 rr sg]; cbn [S K T r sigma].
  intros Hs Hk Hsg Ht. assert (Hk0 : k <> 0) by lra.
  assert (Hq : 0 < sqrt t0) by now apply sqrt_lt_R0.
  exists (fun x => norm_cdf (d1_value x k t0 rr sg)),
         (fun x => norm_cdf (d1_value x k t0 rr sg) - 1).
  eexists.
  split; [intros; now apply delta_call_value|].
  split; [intros; now apply delta_put_value|].
  split; [now apply gamma_value|].
  assert (Hd : derivable_pt_lim (fun x => norm_cdf (d1_value x k t0 rr sg)) s
                 (norm_pdf (d1_value s k t0 rr sg) / (s * sg * sqrt t0))).
  { replace (norm_pdf (d1_value s k t0 rr sg) / (s * sg * sqrt t0))
      with (norm_pdf (d1_value s k t0 rr sg) * (/ s / (sg * sqrt t0)))
      by (field; repeat split; lra).
    apply (derivable_pt_lim_comp (fun x => d1_value x k t0 rr sg) norm_cdf);
      [|apply norm_cdf_deriv].
    exact (d1_at_deriv k t0 rr sg Hk Ht Hsg s Hs). }
  split; [exact Hd|].
  replace (norm_pdf (d1_value s k t0 rr sg) / (s * sg * sqrt t0))
    with (norm_pdf (d1_value s k t0 rr sg) / (s * sg * sqrt t0) - 0) by ring.
  apply derivable_pt_lim_minus; [exact Hd | apply derivable_pt_lim_const].
Qed.

Lemma gamma_is_delta_slope_witness :
  (0 < S at_the_money /\ 0 < K at_the_money /\ 0 < sigma at_the_money
   /\ 0 < T at_the_money) /\
  exists (dcall dput : R -> R) (g : R),
    (forall s, 0 < s ->
       delta_call (__init__ s 100 1 (5 / 100) (2 / 10))
       = Returned (dcall s)) /\
    (forall s, 0 < s ->
       delta_put (__init__ s 100 1 (5 / 100) (2 / 10))
       = Returned (dput s)) /\
    gamma at_the_money = Returned g /\
    derivable_pt_lim dcall 100 g /\ derivable_pt_lim dput 100 g.
Proof.
  assert (H1 : 0 < S at_the_money) by (simpl; lra).
  assert (H2 : 0 < K at_the_money) by (simpl; lra).
  assert (H3 : 0 < sigma at_the_money) by (simpl; lra).
  assert (H4 : 0 < T at_the_money) by (simpl; lra).
  split; [repeat split; assumption|].
  exact (gamma_is_delta_slope at_the_money H1 H2 H3 H4).
Defined.

(** X3: on such a snapshot, what [vega] returns is the derivative, in the
    volatility sigma, of what [call_price] returns and of what
    [put_price] returns. *)
Theorem vega_is_volatility_slope (bs : t) :
  0 < S bs -> 0 < K bs -> 0 < sigma bs -> 0 < T bs ->
  exists (call put : R -> R) (v : R),
    (forall sg, 0 < sg ->
       call_price (__init__ (S bs) (K bs) (T bs) (r bs) sg)
       = Returned (call sg)) /\
    (forall sg, 0 < sg ->
       put_price (__init__ (S bs) (K bs) (T bs) (r bs) sg)
       = Returned (put sg)) /\
    vega bs = Returned v /\
    derivable_pt_lim call (sigma bs) v /\ derivable_pt_lim put (sigma bs) v.
Proof.
  destruct bs as [s k t0 rr sg]; cbn [S K T r sigma].
  intros Hs Hk Hsg Ht. assert (Hk0 : k <> 0) by lra.
  exists (fun x => call_value s k t0 rr x), (fun x => put_value s k t0 rr x).
  eexists.
  split; [intros; now apply call_price_value|].
  split; [intros; now apply put_price_value|].
  split; [now apply vega_value|].
  split; [now apply call_value_deriv_sigma | now apply put_value_deriv_sigma].
Qed.

Lemma vega_is_volatility_slope_witness :
  (0 < S at_the_money /\ 0 < K at_the_money /\ 0 < sigma at_the_money
   /\ 0 < T at_the_money) /\
  exists (call put : R -> R) (v : R),
    (forall sg, 0 < sg ->
       call_price (__init__ 100 100 1 (5 / 100) sg) = Returned (call sg)) /\
    (forall sg, 0 < sg ->
       put_price (__init__ 100 100 1 (5 / 100) sg) = Returned (put sg)) /\
    vega at_the_money = Returned v /\
    derivable_pt_lim call (2 / 10) v /\ derivable_pt_lim put (2 / 10) v.
Proof.
  assert (H1 : 0 < S at_the_money) by (simpl; lra).
  assert (H2 : 0 < K at_the_money) by (simpl; lra).
  assert (H3 : 0 < sigma at_the_money) by (simpl; lra).
  assert (H4 : 0 < T at_the_money) by (simpl; lra).
  split; [repeat split; assumption|].
  exact (vega_is_volatility_slope at_the_money H1 H2 H3 H4).
Defined.

(** X4: on such a snapshot, what [theta_call] and [theta_put] return
    are, per day of a 365-day year, minus the derivatives in the time to
    maturity T of what [call_price] and [put_price] return: 365 times the
    theta is the price lost per year of elapsed time. *)
Theorem theta_is_daily_time_decay (bs : t) :
  0 < S bs -> 0 < K bs -> 0 < sigma bs -> 0 < T bs ->
  exists (call put : R -> R) (tc tp : R),
    (forall t0, 0 < t0 ->
       call_price (__init__ (S bs) (K bs) t0 (r bs) (sigma bs))
       = Returned (call t0)) /\
    (forall t0, 0 < t0 ->
       put_price (__init__ (S bs) (K bs) t0 (r bs) (sigma bs))
       = Returned (put t0)) /\
    theta_call bs = Returned tc /\ theta_put bs = Returned tp /\
    derivable_pt_lim call (T bs) (- (365 * tc)) /\
    derivable_pt_lim put (T bs) (- (365 * tp)).
Proof.
  destruct bs as [s k t0 rr sg]; cbn [S K T r sigma].
  intros Hs Hk Hsg Ht. assert (Hk0 : k <> 0) by lra.
  exists (fun x => call_value s k x rr sg), (fun x => put_value s k x rr sg).
  do 2 eexists.
  split; [intros; now apply call_price_value|].
  split; [intros; now apply put_price_value|].
  split; [now apply theta_call_value|].
  split; [now apply theta_put_value|].
  split.
  - replace (- (365 * ((- s * norm_pdf (d1_value s k t0 rr sg) * sg
                        / (2 * sqrt t0)
                        - rr * k * exp (- rr * t0)
                          * norm_cdf (d1_value s k t0 rr sg - sg * sqrt t0))
                       / 365)))
      with (s * norm_pdf (d1_value s k t0 rr sg) * sg / (2 * sqrt t0)
            + rr * k * exp (- rr * t0)
              * norm_cdf (d1_value s k t0 rr sg - sg * sqrt t0))
      by (unfold Rdiv; field; apply Rgt_not_eq; now apply sqrt_lt_R0).
    now apply call_value_deriv_T.
  - replace (- (365 * ((- s * norm_pdf (d1_value s k t0 rr sg) * sg
                        / (2 * sqrt t0)
                        + rr * k * exp (- rr * t0)
                          * norm_cdf (- (d1_value s k t0 rr sg
                                         - sg * sqrt t0)))
                       / 365)))
      with (s * norm_pdf (d1_value s k t0 rr sg) * sg / (2 * sqrt t0)
            - rr * k * exp (- rr * t0)
              * norm_cdf (- (d1_value s k t0 rr sg - sg * sqrt t0)))
      by (unfold Rdiv; field; apply Rgt_not_eq; now apply sqrt_lt_R0).
    now apply put_value_deriv_T.
Qed.

Lemma theta_is_daily_time_decay_witness :
  (0 < S at_the_money /\ 0 < K at_the_money /\ 0 < sigma at_the_money
   /\ 0 < T at_the_money) /\
  exists (call put : R -> R) (tc tp : R),
    (forall t0, 0 < t0 ->
       call_price (__init__ 100 100 t0 (5 / 100) (2 / 10))
       = Returned (call t0)) /\
    (forall t0, 0 < t0 ->
       put_price (__init__ 100 100 t0 (5 / 100) (2 / 10))
       = Returned (put t0)) /\
    theta_call at_the_money = Returned tc /\
    theta_put at_the_money = Returned tp /\
    derivable_pt_lim call 1 (- (365 * tc)) /\
    derivable_pt_lim put 1 (- (365 * tp)).
Proof.
  assert (H1 : 0 < S at_the_money) by (simpl; lra).
  assert (H2 : 0 < K at_the_money) by (simpl; lra).
  assert (H3 : 0 < sigma at_the_money) by (simpl; lra).
  assert (H4 : 0 < T at_the_money) by (simpl; lra).
  split; [repeat split; assumption|].
  exact (theta_is_daily_time_decay at_the_money H1 H2 H3 H4).
Defined.

(** X5: on such a snapshot, what [rho_call] and [rho_put] return are the
    derivatives, in the rate r, of what [call_price] and [put_price]
    return. *)
Theorem rho_is_rate_slope (bs : t) :
  0 < S bs -> 0 < K bs -> 0 < sigma bs -> 0 < T bs ->
  exists (call put : R -> R) (rc rp : R),
    (forall r0,
       call_price (__init__ (S bs) (K bs) (T bs) r0 (sigma bs))
       = Returned (call r0)) /\
    (forall r0,
       put_price (__init__ (S bs) (K bs) (T bs) r0 (sigma bs))
       = Returned (put r0)) /\
    rho_call bs = Returned rc /\ rho_put bs = Returned rp /\
    derivable_pt_lim call (r bs) rc /\ derivable_pt_lim put (r bs) rp.
Proof.
  destruct bs as [s k t0 rr sg]; cbn [S K T r sigma].
  intros Hs Hk Hsg Ht. assert (Hk0 : k <> 0) by lra.
  exists (fun x => call_value s k t0 x sg), (fun x => put_value s k t0 x sg).
  do 2 eexists.
  split; [intros; now apply call_price_value|].
  split; [intros; now apply put_price_value|].
  split; [now apply rho_call_value|].
  split; [now apply rho_put_value|].
  split; [now apply call_value_deriv_r | now apply put_value_deriv_r].
Qed.

Lemma rho_is_rate_slope_witness :
  (0 < S at_the_money /\ 0 < K at_the_money /\ 0 < sigma at_the_money
   /\ 0 < T at_the_money) /\
  exists (call put : R -> R) (rc rp : R),
    (forall r0,
       call_price (__init__ 100 100 1 r0 (2 / 10)) = Returned (call r0)) /\
    (forall r0,
       put_price (__init__ 100 100 1 r0 (2 / 10)) = Returned (put r0)) /\
    rho_call at_the_money = Returned rc /\
    rho_put at_the_money = Returned rp /\
    derivable_pt_lim call (5 / 100) rc /\ derivable_pt_lim put (5 / 100) rp.
Proof.
  assert (H1 : 0 < S at_the_money) by (simpl; lra).
  assert (H2 : 0 < K at_the_money) by (simpl; lra).
  assert (H3 : 0 < sigma at_the_money) by (simpl; lra).
  assert (H4 : 0 < T at_the_money) by (simpl; lra).
  split; [repeat split; assumption|].
  exact (rho_is_rate_slope at_the_money H1 H2 H3 H4).
Defined.

(** ** Bounds on the prices *)

Lemma discount_pos k rr t0 : 0 < k -> 0 < k * exp (- rr * t0).
Proof. intros Hk. apply Rmult_lt_0_compat; [assumption | apply exp_pos]. Qed.

(** X6: on a snapshot with S, K, sigma, T > 0 the prices are never
    negative and stay inside the no-arbitrage band: the call between
    max(0, S - K exp(-r T)) and S, the put between
    max(0, K exp(-r T) - S) and K exp(-r T). *)
Theorem prices_within_bounds (bs : t) :
  0 < S bs -> 0 < K bs -> 0 < sigma bs -> 0 < T bs ->
  exists c p,
    call_price bs = Returned c /\ put_price bs = Returned p /\
    Rmax 0 (S bs - K bs * exp (- (r bs * T bs))) <= c <= S bs /\
    Rmax 0 (K bs * exp (- (r bs * T bs)) - S bs) <= p
    <= K bs * exp (- (r bs * T bs)).
Proof.
  destruct bs as [s k t0 rr sg]; cbn [S K T r sigma].
  intros Hs Hk Hsg Ht. assert (Hk0 : k <> 0) by lra.
  do 2 eexists.
  split; [now apply call_price_value|].
  split; [now apply put_price_value|].
  pose proof (call_value_nonneg s k t0 rr sg Hs Hk Ht Hsg) as Hc.
  pose proof (put_value_nonneg s k t0 rr sg Hs Hk Ht Hsg) as Hp.
  pose proof (put_value_call_value s k t0 rr sg) as Epar.
  pose proof (discount_pos k rr t0 Hk) as Hd.
  rewrite <- exp_discount.
  assert (Hcu : call_value s k t0 rr sg <= s).
  { unfold call_value.
    pose proof (norm_cdf_range (d1_value s k t0 rr sg)) as H1.
    pose proof (norm_cdf_range (d1_value s k t0 rr sg - sg * sqrt t0)) as H2.
    assert (0 <= k * exp (- rr * t0)
                 * norm_cdf (d1_value s k t0 rr sg - sg * sqrt t0))
      by (apply Rmult_le_pos; lra).
    nra. }
  split; split; try (apply Rmax_lub); lra.
Qed.

Lemma prices_within_bounds_witness :
  (0 < S at_the_money /\ 0 < K at_the_money /\ 0 < sigma at_the_money
   /\ 0 < T at_the_money) /\
  exists c p,
    call_price at_the_money = Returned c /\
    put_price at_the_money = Returned p /\
    Rmax 0 (100 - 100 * exp (- (5 / 100 * 1))) <= c <= 100 /\
    Rmax 0 (100 * exp (- (5 / 100 * 1)) - 100) <= p
    <= 100 * exp (- (5 / 100 * 1)).
Proof.
  assert (H1 : 0 < S at_the_money) by (simpl; lra).
  assert (H2 : 0 < K at_the_money) by (simpl; lra).
  assert (H3 : 0 < sigma at_the_money) by (simpl; lra).
  assert (H4 : 0 < T at_the_money) by (simpl; lra).
  split; [repeat split; assumption|].
  exact (prices_within_bounds at_the_money H1 H2 H3 H4).
Defined.

(** X7: with a rate r >= 0 a call before expiry is worth at least what
    [call_price] returns at expiry (T = 0) for the same S and K. *)
Theorem call_worth_at_least_intrinsic (bs : t) :
  0 < S bs -> 0 < K bs -> 0 < sigma bs -> 0 < T bs -> 0 <= r bs ->
  exists c c0,
    call_price bs = Returned c /\
    call_price (__init__ (S bs) (K bs) 0 (r bs) (sigma bs)) = Returned c0 /\
    c0 <= c.
Proof.
  destruct bs as [s k t0 rr sg]; cbn [S K T r sigma].
  intros Hs Hk Hsg Ht Hr. assert (Hk0 : k <> 0) by lra.
  do 2 eexists.
  split; [now apply call_price_value|].
  split.
  { unfold call_price. cbn [S K T r sigma].
    destruct (Rle_dec 0 0) as [_|Hn]; [reflexivity | exfalso; lra]. }
  rewrite py_max_Rmax.
  pose proof (call_value_nonneg s k t0 rr sg Hs Hk Ht Hsg) as Hc.
  pose proof (put_value_nonneg s k t0 rr sg Hs Hk Ht Hsg) as Hp.
  pose proof (put_value_call_value s k t0 rr sg) as Epar.
  assert (He : exp (- rr * t0) <= 1).
  { rewrite <- exp_0.
    assert (Hle : - rr * t0 <= 0) by nra.
    destruct Hle as [Hlt|Heq];
      [left; now apply exp_increasing | rewrite Heq; lra]. }
  apply Rmax_lub; [assumption|]. nra.
Qed.

Lemma call_worth_at_least_intrinsic_witness :
  (0 < S at_the_money /\ 0 < K at_the_money /\ 0 < sigma at_the_money
   /\ 0 < T at_the_money /\ 0 <= r at_the_money) /\
  exists c c0,
    call_price at_the_money = Returned c /\
    call_price (__init__ 100 100 0 (5 / 100) (2 / 10)) = Returned c0 /\
    c0 <= c.
Proof.
  assert (H1 : 0 < S at_the_money) by (simpl; lra).
  assert (H2 : 0 < K at_the_money) by (simpl; lra).
  assert (H3 : 0 < sigma at_the_money) by (simpl; lra).
  assert (H4 : 0 < T at_the_money) by (simpl; lra).
  assert (H5 : 0 <= r at_the_money) by (simpl; lra).
  split; [repeat split; assumption|].
  exact (call_worth_at_least_intrinsic at_the_money H1 H2 H3 H4 H5).
Defined.

(** X8: put-call duality.  On a snapshot with S, K, sigma, T > 0,
    [put_price] returns what [call_price] returns on the snapshot whose
    underlying price is the discounted strike K exp(-r T), whose strike is
    S and whose rate is 0. *)
Theorem put_is_dual_call (bs : t) :
  0 < S bs -> 0 < K bs -> 0 < sigma bs -> 0 < T bs ->
  put_price bs
  = call_price (__init__ (K bs * exp (- (r bs * T bs))) (S bs) (T bs) 0
                         (sigma bs)).
Proof.
  destruct bs as [s k t0 rr sg]; cbn [S K T r sigma].
  intros Hs Hk Hsg Ht.
  rewrite put_price_value, call_price_value by lra.
  f_equal. rewrite <- exp_discount. now apply put_value_dual.
Qed.

Lemma put_is_dual_call_witness :
  (0 < S at_the_money /\ 0 < K at_the_money /\ 0 < sigma at_the_money
   /\ 0 < T at_the_money) /\
  put_price at_the_money
  = call_price (__init__ (100 * exp (- (5 / 100 * 1))) 100 1 0 (2 / 10)).
Proof.
  assert (H1 : 0 < S at_the_money) by (simpl; lra).
  assert (H2 : 0 < K at_the_money) by (simpl; lra).
  assert (H3 : 0 < sigma at_the_money) by (simpl; lra).
  assert (H4 : 0 < T at_the_money) by (simpl; lra).
  split; [repeat split; assumption|].
  exact (put_is_dual_call at_the_money H1 H2 H3 H4).
Defined.

(** ** Signs of the Greeks and relations between them *)

(** X9: on a snapshot with S, K, sigma, T > 0, [gamma] and [vega] return
    positive values, tied by vega = S^2 * sigma * T * gamma. *)
Theorem gamma_vega_positive (bs : t) :
  0 < S bs -> 0 < K bs -> 0 < sigma bs -> 0 < T bs ->
  exists g v,
    gamma bs = Returned g /\ vega bs = Returned v /\
    0 < g /\ 0 < v /\ v = S bs ^ 2 * sigma bs * T bs * g.
Proof.
  destruct bs as [s k t0 rr sg]; cbn [S K T r sigma].
  intros Hs Hk Hsg Ht. assert (Hk0 : k <> 0) by lra.
  assert (Hq : 0 < sqrt t0) by now apply sqrt_lt_R0.
  assert (Hsq : sqrt t0 * sqrt t0 = t0) by (apply sqrt_sqrt; lra).
  pose proof (norm_pdf_pos (d1_value s k t0 rr sg)) as Hp.
  do 2 eexists.
  split; [now apply gamma_value|].
  split; [now apply vega_value|].
  repeat split.
  - apply Rdiv_lt_0_compat; [assumption|].
    apply Rmult_lt_0_compat; [apply Rmult_lt_0_compat|]; assumption.
  - apply Rmult_lt_0_compat; [apply Rmult_lt_0_compat|]; assumption.
  - set (p := norm_pdf (d1_value s k t0 rr sg)).
    set (q := sqrt t0) in *. rewrite <- Hsq. field. repeat split; lra.
Qed.

Lemma gamma_vega_positive_witness :
  (0 < S at_the_money /\ 0 < K at_the_money /\ 0 < sigma at_the_money
   /\ 0 < T at_the_money) /\
  exists g v,
    gamma at_the_money = Returned g /\ vega at_the_money = Returned v /\
    0 < g /\ 0 < v /\ v = 100 ^ 2 * (2 / 10) * 1 * g.
Proof.
  assert (H1 : 0 < S at_the_money) by (simpl; lra).
  assert (H2 : 0 < K at_the_money) by (simpl; lra).
  assert (H3 : 0 < sigma at_the_money) by (simpl; lra).
  assert (H4 : 0 < T at_the_money) by (simpl; lra).
  split; [repeat split; assumption|].
  exact (gamma_vega_positive at_the_money H1 H2 H3 H4).
Defined.

(** X10: on such a snapshot [rho_call] returns a positive value,
    [rho_put] a negative one, and their difference is
    K * T * exp(-r T). *)
Theorem rho_signs (bs : t) :
  0 < S bs -> 0 < K bs -> 0 < sigma bs -> 0 < T bs ->
  exists rc rp,
    rho_call bs = Returned rc /\ rho_put bs = Returned rp /\
    0 < rc /\ rp < 0 /\
    rc - rp = K bs * T bs * exp (- (r bs * T bs)).
Proof.
  destruct bs as [s k t0 rr sg]; cbn [S K T r sigma].
  intros Hs Hk Hsg Ht. assert (Hk0 : k <> 0) by lra.
  do 2 eexists.
  split; [now apply rho_call_value|].
  split; [now apply rho_put_value|].
  pose proof (norm_cdf_strict_range (d1_value s k t0 rr sg - sg * sqrt t0))
    as Hr.
  pose proof (exp_pos (- rr * t0)) as He.
  assert (Hkt : 0 < k * t0 * exp (- rr * t0))
    by (apply Rmult_lt_0_compat; [apply Rmult_lt_0_compat|]; assumption).
  rewrite norm_cdf_sym, <- exp_discount.
  repeat split; nra.
Qed.

Lemma rho_signs_witness :
  (0 < S at_the_money /\ 0 < K at_the_money /\ 0 < sigma at_the_money
   /\ 0 < T at_the_money) /\
  exists rc rp,
    rho_call at_the_money = Returned rc /\
    rho_put at_the_money = Returned rp /\
    0 < rc /\ rp < 0 /\ rc - rp = 100 * 1 * exp (- (5 / 100 * 1)).
Proof.
  assert (H1 : 0 < S at_the_money) by (simpl; lra).
  assert (H2 : 0 < K at_the_money) by (simpl; lra).
  assert (H3 : 0 < sigma at_the_money) by (simpl; lra).
  assert (H4 : 0 < T at_the_money) by (simpl; lra).
  split; [repeat split; assumption|].
  exact (rho_signs at_the_money H1 H2 H3 H4).
Defined.

(** X11: on such a snapshot the two thetas differ by the daily carry of
    the strike, theta_call - theta_put = - r * K * exp(-r T) / 365, and
    with r >= 0 [theta_call] returns a negative value. *)
Theorem theta_relations (bs : t) :
  0 < S bs -> 0 < K bs -> 0 < sigma bs -> 0 < T bs ->
  exists tc tp,
    theta_call bs = Returned tc /\ theta_put bs = Returned tp /\
    tc - tp = - (r bs * K bs * exp (- (r bs * T bs))) / 365 /\
    (0 <= r bs -> tc < 0).
Proof.
  destruct bs as [s k t0 rr sg]; cbn [S K T r sigma].
  intros Hs Hk Hsg Ht. assert (Hk0 : k <> 0) by lra.
  assert (Hq : 0 < sqrt t0) by now apply sqrt_lt_R0.
  do 2 eexists.
  split; [now apply theta_call_value|].
  split; [now apply theta_put_value|].
  rewrite norm_cdf_sym, <- exp_discount.
  split; [unfold Rdiv; ring|].
  intros Hr.
  pose proof (norm_pdf_pos (d1_value s k t0 rr sg)) as Hp.
  pose proof (norm_cdf_range (d1_value s k t0 rr sg - sg * sqrt t0)) as Hc.
  pose proof (exp_pos (- rr * t0)) as He.
  assert (Hfirst : 0 < s * norm_pdf (d1_value s k t0 rr sg) * sg
                       / (2 * sqrt t0)).
  { apply Rdiv_lt_0_compat; [|lra].
    apply Rmult_lt_0_compat; [apply Rmult_lt_0_compat|]; assumption. }
  assert (Hsecond : 0 <= rr * k * exp (- rr * t0)
                          * norm_cdf (d1_value s k t0 rr sg - sg * sqrt t0)).
  { apply Rmult_le_pos; [apply Rmult_le_pos; [apply Rmult_le_pos|]|]; lra. }
  replace (- s * norm_pdf (d1_value s k t0 rr sg) * sg / (2 * sqrt t0))
    with (- (s * norm_pdf (d1_value s k t0 rr sg) * sg / (2 * sqrt t0)))
    by (unfold Rdiv; ring).
  apply Rmult_lt_reg_r with 365; [lra|].
  unfold Rdiv at 1. rewrite Rmult_assoc, Rinv_l by lra. lra.
Qed.

Lemma theta_relations_witness :
  (0 < S at_the_money /\ 0 < K at_the_money /\ 0 < sigma at_the_money
   /\ 0 < T at_the_money) /\
  exists tc tp,
    theta_call at_the_money = Returned tc /\
    theta_put at_the_money = Returned tp /\
    tc - tp = - (5 / 100 * 100 * exp (- (5 / 100 * 1))) / 365 /\
    (0 <= 5 / 100 -> tc < 0).
Proof.
  assert (H1 : 0 < S at_the_money) by (simpl; lra).
  assert (H2 : 0 < K at_the_money) by (simpl; lra).
  assert (H3 : 0 < sigma at_the_money) by (simpl; lra).
  assert (H4 : 0 < T at_the_money) by (simpl; lra).
  split; [repeat split; assumption|].
  exact (theta_relations at_the_money H1 H2 H3 H4).
Defined.

(** ** Monotonicity in the other parameters *)

(** X12: for fixed S, K, T > 0 and r, raising the volatility raises both
    prices: with 0 < sigma1 < sigma2 the call and the put returned at
    sigma1 are below those returned at sigma2. *)
Theorem prices_increase_with_volatility (S0 K0 T0 r0 sigma1 sigma2 : R) :
  0 < S0 -> 0 < K0 -> 0 < T0 -> 0 < sigma1 -> sigma1 < sigma2 ->
  exists c1 c2 p1 p2,
    call_price (__init__ S0 K0 T0 r0 sigma1) = Returned c1 /\
    call_price (__init__ S0 K0 T0 r0 sigma2) = Returned c2 /\
    put_price (__init__ S0 K0 T0 r0 sigma1) = Returned p1 /\
    put_price (__init__ S0 K0 T0 r0 sigma2) = Returned p2 /\
    c1 < c2 /\ p1 < p2.
Proof.
  intros HS HK HT Hs1 Hlt. assert (HK0 : K0 <> 0) by lra.
  do 4 eexists.
  repeat (split; [now (apply call_price_value || apply put_price_value)|]).
  now apply values_increasing_in_volatility.
Qed.

Lemma prices_increase_with_volatility_witness :
  (0 < 100 /\ 0 < 100 /\ 0 < 1 /\ 0 < 2 / 10 /\ 2 / 10 < 3 / 10) /\
  exists c1 c2 p1 p2,
    call_price (__init__ 100 100 1 (5 / 100) (2 / 10)) = Returned c1 /\
    call_price (__init__ 100 100 1 (5 / 100) (3 / 10)) = Returned c2 /\
    put_price (__init__ 100 100 1 (5 / 100) (2 / 10)) = Returned p1 /\
    put_price (__init__ 100 100 1 (5 / 100) (3 / 10)) = Returned p2 /\
    c1 < c2 /\ p1 < p2.
Proof.
  assert (H1 : 0 < 100) by lra.
  assert (H3 : 0 < 1) by lra.
  assert (H4 : 0 < 2 / 10) by lra.
  assert (H5 : 2 / 10 < 3 / 10) by lra.
  split; [repeat split; assumption|].
  exact (prices_increase_with_volatility 100 100 1 (5 / 100) (2 / 10) (3 / 10)
           H1 H1 H3 H4 H5).
Defined.

(** X13: for fixed S, K, T, sigma > 0, raising the rate raises the call
    and lowers the put: with r1 < r2 the call returned at r1 is below the
    one at r2 and the put returned at r1 is above the one at r2. *)
Theorem prices_move_with_rate (S0 K0 T0 r1 r2 sigma0 : R) :
  0 < S0 -> 0 < K0 -> 0 < T0 -> 0 < sigma0 -> r1 < r2 ->
  exists c1 c2 p1 p2,
    call_price (__init__ S0 K0 T0 r1 sigma0) = Returned c1 /\
    call_price (__init__ S0 K0 T0 r2 sigma0) = Returned c2 /\
    put_price (__init__ S0 K0 T0 r1 sigma0) = Returned p1 /\
    put_price (__init__ S0 K0 T0 r2 sigma0) = Returned p2 /\
    c1 < c2 /\ p2 < p1.
Proof.
  intros HS HK HT Hsg Hlt. assert (HK0 : K0 <> 0) by lra.
  do 4 eexists.
  repeat (split; [now (apply call_price_value || apply put_price_value)|]).
  destruct (MVT_cor2 (fun x => call_value S0 K0 T0 x sigma0)
              (fun x => K0 * T0 * exp (- x * T0)
                        * norm_cdf (d1_value S0 K0 T0 x sigma0
                                    - sigma0 * sqrt T0))
              r1 r2 Hlt) as [c [Ec _]].
  { intros c _. now apply call_value_deriv_r. }
  destruct (MVT_cor2 (fun x => put_value S0 K0 T0 x sigma0)
              (fun x => - K0 * T0 * exp (- x * T0)
                        * norm_cdf (- (d1_value S0 K0 T0 x sigma0
                                       - sigma0 * sqrt T0)))
              r1 r2 Hlt) as [c' [Ep _]].
  { intros c' _. now apply put_value_deriv_r. }
  pose proof (norm_cdf_strict_range
                (d1_value S0 K0 T0 c sigma0 - sigma0 * sqrt T0)) as Hc.
  pose proof (norm_cdf_strict_range
                (- (d1_value S0 K0 T0 c' sigma0 - sigma0 * sqrt T0))) as Hc'.
  assert (Hk : 0 < K0 * T0 * exp (- c * T0))
    by (apply Rmult_lt_0_compat; [apply Rmult_lt_0_compat|];
        try assumption; apply exp_pos).
  assert (Hk' : 0 < K0 * T0 * exp (- c' * T0))
    by (apply Rmult_lt_0_compat; [apply Rmult_lt_0_compat|];
        try assumption; apply exp_pos).
  set (A := K0 * T0 * exp (- c * T0)
            * norm_cdf (d1_value S0 K0 T0 c sigma0 - sigma0 * sqrt T0)) in *.
  set (B := K0 * T0 * exp (- c' * T0)
            * norm_cdf (- (d1_value S0 K0 T0 c' sigma0 - sigma0 * sqrt T0))).
  replace (- K0 * T0 * exp (- c' * T0)
           * norm_cdf (- (d1_value S0 K0 T0 c' sigma0 - sigma0 * sqrt T0)))
    with (- B) in Ep by (unfold B; ring).
  assert (HA : 0 < A * (r2 - r1)).
  { apply Rmult_lt_0_compat; [|lra]. unfold A.
    apply Rmult_lt_0_compat; lra. }
  assert (HB : 0 < B * (r2 - r1)).
  { apply Rmult_lt_0_compat; [|lra]. unfold B.
    apply Rmult_lt_0_compat; lra. }
  split; lra.
Qed.

Lemma prices_move_with_rate_witness :
  (0 < 100 /\ 0 < 100 /\ 0 < 1 /\ 0 < 2 / 10 /\ 1 / 100 < 5 / 100) /\
  exists c1 c2 p1 p2,
    call_price (__init__ 100 100 1 (1 / 100) (2 / 10)) = Returned c1 /\
    call_price (__init__ 100 100 1 (5 / 100) (2 / 10)) = Returned c2 /\
    put_price (__init__ 100 100 1 (1 / 100) (2 / 10)) = Returned p1 /\
    put_price (__init__ 100 100 1 (5 / 100) (2 / 10)) = Returned p2 /\
    c1 < c2 /\ p2 < p1.
Proof.
  assert (H1 : 0 < 100) by lra.
  assert (H3 : 0 < 1) by lra.
  assert (H4 : 0 < 2 / 10) by lra.
  assert (H5 : 1 / 100 < 5 / 100) by lra.
  split; [repeat split; assumption|].
  exact (prices_move_with_rate 100 100 1 (1 / 100) (5 / 100) (2 / 10)
           H1 H1 H3 H4 H5).
Defined.

(** X14: with a rate r >= 0 and fixed S, K, sigma > 0, a call with more
    time to maturity is worth more: with 0 < T1 < T2 the call returned at
    T1 is below the one returned at T2. *)
Theorem call_increases_with_maturity (S0 K0 T1 T2 r0 sigma0 : R) :
  0 < S0 -> 0 < K0 -> 0 < sigma0 -> 0 <= r0 -> 0 < T1 -> T1 < T2 ->
  exists c1 c2,
    call_price (__init__ S0 K0 T1 r0 sigma0) = Returned c1 /\
    call_price (__init__ S0 K0 T2 r0 sigma0) = Returned c2 /\
    c1 < c2.
Proof.
  intros HS HK Hsg Hr HT1 Hlt. assert (HK0 : K0 <> 0) by lra.
  do 2 eexists.
  split; [apply call_price_value; lra|].
  split; [apply call_price_value; lra|].
  destruct (MVT_cor2 (fun x => call_value S0 K0 x r0 sigma0)
              (fun x => S0 * norm_pdf (d1_value S0 K0 x r0 sigma0) * sigma0
                        / (2 * sqrt x)
                        + r0 * K0 * exp (- r0 * x)
                          * norm_cdf (d1_value S0 K0 x r0 sigma0
                                      - sigma0 * sqrt x))
              T1 T2 Hlt) as [c [E Hc]].
  { intros c Hc. apply call_value_deriv_T; lra. }
  assert (Hq : 0 < sqrt c) by (apply sqrt_lt_R0; lra).
  pose proof (norm_pdf_pos (d1_value S0 K0 c r0 sigma0)) as Hp.
  pose proof (norm_cdf_range
                (d1_value S0 K0 c r0 sigma0 - sigma0 * sqrt c)) as Hn.
  pose proof (exp_pos (- r0 * c)) as He.
  assert (Hfirst : 0 < S0 * norm_pdf (d1_value S0 K0 c r0 sigma0) * sigma0
                       / (2 * sqrt c)).
  { apply Rdiv_lt_0_compat; [|lra].
    apply Rmult_lt_0_compat; [apply Rmult_lt_0_compat|]; assumption. }
  assert (Hsecond : 0 <= r0 * K0 * exp (- r0 * c)
                          * norm_cdf (d1_value S0 K0 c r0 sigma0
                                      - sigma0 * sqrt c)).
  { apply Rmult_le_pos; [apply Rmult_le_pos; [apply Rmult_le_pos|]|]; lra. }
  nra.
Qed.

Lemma call_increases_with_maturity_witness :
  (0 < 100 /\ 0 < 100 /\ 0 < 2 / 10 /\ 0 <= 5 / 100 /\ 0 < 1 / 2
   /\ 1 / 2 < 1) /\
  exists c1 c2,
    call_price (__init__ 100 100 (1 / 2) (5 / 100) (2 / 10)) = Returned c1 /\
    call_price (__init__ 100 100 1 (5 / 100) (2 / 10)) = Returned c2 /\
    c1 < c2.
Proof.
  assert (H1 : 0 < 100) by lra.
  assert (H3 : 0 < 2 / 10) by lra.
  assert (H4 : 0 <= 5 / 100) by lra.
  assert (H5 : 0 < 1 / 2) by lra.
  assert (H6 : 1 / 2 < 1) by lra.
  split; [repeat split; assumption|].
  exact (call_increases_with_maturity 100 100 (1 / 2) 1 (5 / 100) (2 / 10)
           H1 H1 H3 H4 H5 H6).
Defined.

(** ** At and after expiry *)

(** X15: with T <= 0, whatever S, K, r and sigma are, the two prices are
    the payoffs: neither is negative, at most one of them is not zero, and
    the call minus the put is S - K. *)
Theorem payoffs_at_expiry (bs : t) :
  T bs <= 0 ->
  exists c p,
    call_price bs = Returned c /\ put_price bs = Returned p /\
    0 <= c /\ 0 <= p /\ (c = 0 \/ p = 0) /\ c - p = S bs - K bs.
Proof.
  intros HT. unfold call_price, put_price.
  destruct (Rle_dec (T bs) 0) as [_|Hn]; [|contradiction].
  do 2 eexists. split; [reflexivity|]. split; [reflexivity|].
  unfold py_max.
  destruct (Rlt_dec 0 (S bs - K bs)), (Rlt_dec 0 (K bs - S bs));
    repeat split; try lra; (left; lra) || (right; lra).
Qed.

Lemma payoffs_at_expiry_witness :
  T at_expiry <= 0 /\
  exists c p,
    call_price at_expiry = Returned c /\ put_price at_expiry = Returned p /\
    0 <= c /\ 0 <= p /\ (c = 0 \/ p = 0) /\ c - p = 110 - 100.
Proof.
  assert (HT : T at_expiry <= 0) by (simpl; lra).
  split; [exact HT | exact (payoffs_at_expiry at_expiry HT)].
Defined.

(** ** The option type *)

Lemma eq_ignore_case_lower a b :
  eq_ignore_case a b = true -> lower a = lower b.
Proof.
  rewrite <- lower_eq_ignore_case. apply String.eqb_eq.
Qed.

(** X16: two spellings of [option_type] that differ only in the case of
    their letters give the same outcome of [calculate_option_price], be it
    a price or the [ValueError]. *)
Theorem option_type_case_ignored
        (S0 K0 T0 r0 sigma0 : R) (type1 type2 : string) :
  eq_ignore_case type1 type2 = true ->
  calculate_option_price S0 K0 T0 r0 sigma0 type1
  = calculate_option_price S0 K0 T0 r0 sigma0 type2.
Proof.
  intros H. unfold calculate_option_price.
  now rewrite (eq_ignore_case_lower _ _ H).
Qed.

Lemma option_type_case_ignored_witness :
  eq_ignore_case "Call" "cALL" = true /\
  calculate_option_price 100 100 1 (5 / 100) (2 / 10) "Call"
  = calculate_option_price 100 100 1 (5 / 100) (2 / 10) "cALL".
Proof.
  assert (H : eq_ignore_case "Call" "cALL" = true) by reflexivity.
  split; [exact H|].
  exact (option_type_case_ignored 100 100 1 (5 / 100) (2 / 10) _ _ H).
Defined.

End Sensitivities.

(** * The sweeps of the dashboard ([app.py]) *)

(** [np.linspace(start, stop, num)]: [num] evenly spaced samples from
    [start] to [stop], both ends included (numpy is not part of the
    repository; this is its documented definition). *)
Definition linspace (start stop : R) (num : nat) : list R :=
  map (fun i => start + INR i * ((stop - start) / INR (num - 1)))
      (seq 0 num).

(** A loop that fills one slot per element and stops at the first
    exception. *)
Fixpoint mapM {A B : Type} (f : A -> result B) (l : list A) :
  result (list B) :=
  match l with
  | [] => Returned []
  | a :: l' => b <- f a ;; bs <- mapM f l' ;; Returned (b :: bs)
  end.

(** The body of the heat-map loops: the snapshot [bs_temp] of one cell
    and its two prices.  Here K, T and r are the values of the sidebar
    widgets (K is at least 1 and T at least 0.01 there).  The price of a
    cell is a numpy float64, for which [S / K] at K = 0 would give inf
    and not raise; every statement about the heat maps assumes K > 0. *)
Definition heat_map_cell (K T r vol price : R) : result (R * R) :=
  let bs_temp := BlackScholes.__init__ price K T r vol in
  c <- BlackScholes.call_price bs_temp ;;
  p <- BlackScholes.put_price bs_temp ;;
  Returned (c, p).

(** The matrices [call_values] and [put_values]: one row per volatility
    of [vol_range], one column per price of [price_range]. *)
Definition heat_map_values (K T r vol_min vol_max price_min price_max : R) :
  result (list (list R) * list (list R)) :=
  let vol_range := linspace vol_min vol_max 20 in
  let price_range := linspace price_min price_max 20 in
  cells <- mapM (fun vol => mapM (heat_map_cell K T r vol) price_range)
                vol_range ;;
  Returned (map (map fst) cells, map (map snd) cells).

(** [call_display] and [put_display]: the values themselves, or the
    values less the purchase price when P&L tracking is enabled. *)
Definition heat_map_display (enable_pnl : bool) (purchase_price : R)
           (values : list (list R)) : list (list R) :=
  if enable_pnl then map (map (fun v => v - purchase_price)) values
  else values.

(** The payoff diagrams: the price axis [stock_prices_payoff] and the
    arrays [call_payoffs] and [put_payoffs], [np.maximum] being the
    element-wise maximum. *)
Definition stock_prices_payoff (S : R) : list R :=
  linspace (S * (5 / 10)) (S * (15 / 10)) 100.

Definition call_payoffs (S K : R) : list R :=
  map (fun p => Rmax (p - K) 0) (stock_prices_payoff S).

Definition put_payoffs (S K : R) : list R :=
  map (fun p => Rmax (K - p) 0) (stock_prices_payoff S).

(** [call_pnl] and [put_pnl]: a payoff array less the purchase price. *)
Definition pnl (payoffs : list R) (purchase_price : R) : list R :=
  map (fun v => v - purchase_price) payoffs.

(** ** Evenly spaced samples *)

Lemma linspace_length a b n : List.length (linspace a b n) = n.
Proof. unfold linspace. now rewrite length_map, length_seq. Qed.

Lemma linspace_nth a b n i d :
  (i < n)%nat ->
  nth i (linspace a b n) d = a + INR i * ((b - a) / INR (n - 1)).
Proof.
  intros Hi. unfold linspace.
  rewrite (nth_indep _ d (a + INR 0 * ((b - a) / INR (n - 1))))
    by now rewrite length_map, length_seq.
  rewrite (map_nth (fun i => a + INR i * ((b - a) / INR (n - 1)))).
  now rewrite seq_nth.
Qed.

(** The share of the way from [start] to [stop] covered at index i. *)
Lemma linspace_share n i :
  (2 <= n)%nat -> (i < n)%nat -> 0 <= INR i / INR (n - 1) <= 1.
Proof.
  intros Hn Hi.
  assert (Hpos : 0 < INR (n - 1)) by (apply lt_0_INR; lia).
  assert (H0 : 0 <= INR i) by apply pos_INR.
  assert (Hle : INR i <= INR (n - 1)) by (apply le_INR; lia).
  split.
  - apply Rmult_le_pos; [assumption | left; now apply Rinv_0_lt_compat].
  - apply Rmult_le_reg_r with (INR (n - 1)); [assumption|].
    unfold Rdiv. rewrite Rmult_assoc, Rinv_l by lra. lra.
Qed.

Lemma linspace_nth_share a b n i d :
  (2 <= n)%nat -> (i < n)%nat ->
  nth i (linspace a b n) d = a + INR i / INR (n - 1) * (b - a).
Proof.
  intros Hn Hi. rewrite linspace_nth by assumption.
  assert (Hpos : 0 < INR (n - 1)) by (apply lt_0_INR; lia).
  field. lra.
Qed.

Lemma linspace_first a b n d :
  (2 <= n)%nat -> nth 0 (linspace a b n) d = a.
Proof.
  intros Hn. rewrite linspace_nth by lia. simpl. ring.
Qed.

Lemma linspace_last a b n d :
  (2 <= n)%nat -> nth (n - 1) (linspace a b n) d = b.
Proof.
  intros Hn. rewrite linspace_nth by lia.
  assert (Hpos : 0 < INR (n - 1)) by (apply lt_0_INR; lia).
  field. lra.
Qed.

Lemma linspace_between a b n i d :
  (2 <= n)%nat -> (i < n)%nat ->
  Rmin a b <= nth i (linspace a b n) d <= Rmax a b.
Proof.
  intros Hn Hi. rewrite linspace_nth_share by assumption.
  pose proof (linspace_share n i Hn Hi) as Hs.
  set (th := INR i / INR (n - 1)) in *.
  unfold Rmin, Rmax. destruct (Rle_dec a b); split; nra.
Qed.

Lemma linspace_monotone a b n i j d :
  (2 <= n)%nat -> a <= b -> (i <= j)%nat -> (j < n)%nat ->
  nth i (linspace a b n) d <= nth j (linspace a b n) d.
Proof.
  intros Hn Hab Hij Hj. rewrite !linspace_nth_share by lia.
  assert (Hpos : 0 < INR (n - 1)) by (apply lt_0_INR; lia).
  assert (Hle : INR i <= INR j) by now apply le_INR.
  assert (Hsh : INR i / INR (n - 1) <= INR j / INR (n - 1)).
  { unfold Rdiv. apply Rmult_le_compat_r;
      [left; now apply Rinv_0_lt_compat | assumption]. }
  nra.
Qed.

Lemma linspace_positive a b n i d :
  (2 <= n)%nat -> (i < n)%nat -> 0 < a -> 0 < b ->
  0 < nth i (linspace a b n) d.
Proof.
  intros Hn Hi Ha Hb.
  pose proof (linspace_between a b n i d Hn Hi) as [Hlo _].
  assert (0 < Rmin a b) by now apply Rmin_pos. lra.
Qed.

(** ** Loops that complete *)

Lemma mapM_returned {A B : Type} (f : A -> result B) (g : A -> B) l :
  (forall a, In a l -> f a = Returned (g a)) ->
  mapM f l = Returned (map g l).
Proof.
  induction l as [|a l IH]; intros H; [reflexivity|].
  cbn [mapM map]. rewrite (H a) by now left. cbn [bind].
  rewrite IH by (intros; apply H; now right). reflexivity.
Qed.

Lemma nth_map_in {A : Type} (f : A -> R) (l : list A) (i : nat) (d : A) (e : R) :
  (i < List.length l)%nat -> nth i (map f l) e = f (nth i l d).
Proof.
  intros Hi. rewrite (nth_indep _ e (f d)) by now rewrite length_map.
  apply map_nth.
Qed.

Lemma nth_grid (F : R -> R -> R) (vols prices : list R) (i j : nat) :
  (i < List.length vols)%nat -> (j < List.length prices)%nat ->
  nth j (nth i (map (fun v => map (fun p => F p v) prices) vols) []) 0
  = F (nth j prices 0) (nth i vols 0).
Proof.
  intros Hi Hj.
  rewrite (nth_indep _ [] ((fun v => map (fun p => F p v) prices) 0))
    by now rewrite length_map.
  rewrite (map_nth (fun v => map (fun p => F p v) prices)).
  exact (nth_map_in (fun p => F p (nth i vols 0)) prices j 0 0 Hj).
Qed.

(** With a non-zero strike and T > 0 the heat-map loops complete, and
    each cell holds the two values of its snapshot. *)
Lemma heat_map_values_value (K T r vol_min vol_max price_min price_max : R) :
  K <> 0 -> 0 < T ->
  heat_map_values K T r vol_min vol_max price_min price_max
  = Returned
      (map (fun v => map (fun p => call_value p K T r v)
                         (linspace price_min price_max 20))
           (linspace vol_min vol_max 20),
       map (fun v => map (fun p => put_value p K T r v)
                         (linspace price_min price_max 20))
           (linspace vol_min vol_max 20)).
Proof.
  intros HK HT. unfold heat_map_values.
  rewrite (mapM_returned _
             (fun v => map (fun p => (call_value p K T r v,
                                      put_value p K T r v))
                           (linspace price_min price_max 20))).
  - cbn [bind]. rewrite !map_map.
    assert (Ec : forall v,
               map fst (map (fun p => (call_value p K T r v,
                                       put_value p K T r v))
                            (linspace price_min price_max 20))
               = map (fun p => call_value p K T r v)
                     (linspace price_min price_max 20))
      by (intros v; now rewrite map_map).
    assert (Ep : forall v,
               map snd (map (fun p => (call_value p K T r v,
                                       put_value p K T r v))
                            (linspace price_min price_max 20))
               = map (fun p => put_value p K T r v)
                     (linspace price_min price_max 20))
      by (intros v; now rewrite map_map).
    now rewrite (map_ext _ _ Ec), (map_ext _ _ Ep).
  - intros v _. apply mapM_returned. intros p _.
    unfold heat_map_cell.
    rewrite call_price_value, put_price_value by assumption.
    reflexivity.
Qed.

(** ** The heat maps *)

Section HeatMaps.

Variables K T r vol_min vol_max price_min price_max : R.
Hypothesis HK : 0 < K.
Hypothesis HT : 0 < T.
Hypothesis Hvmin : 0 < vol_min.
Hypothesis Hvmax : 0 < vol_max.
Hypothesis Hpmin : 0 < price_min.
Hypothesis Hpmax : 0 < price_max.

Lemma heat_map_vol_positive i :
  (i < 20)%nat -> 0 < nth i (linspace vol_min vol_max 20) 0.
Proof. intros Hi. apply linspace_positive; try assumption; lia. Qed.

Lemma heat_map_price_positive j :
  (j < 20)%nat -> 0 < nth j (linspace price_min price_max 20) 0.
Proof. intros Hj. apply linspace_positive; try assumption; lia. Qed.

Lemma heat_map_call_cell i j :
  (i < 20)%nat -> (j < 20)%nat ->
  nth j (nth i (map (fun v => map (fun p => call_value p K T r v)
                                  (linspace price_min price_max 20))
                    (linspace vol_min vol_max 20)) []) 0
  = call_value (nth j (linspace price_min price_max 20) 0) K T r
               (nth i (linspace vol_min vol_max 20) 0).
Proof.
  intros Hi Hj.
  apply (nth_grid (fun p v => call_value p K T r v));
    now rewrite linspace_length.
Qed.

Lemma heat_map_put_cell i j :
  (i < 20)%nat -> (j < 20)%nat ->
  nth j (nth i (map (fun v => map (fun p => put_value p K T r v)
                                  (linspace price_min price_max 20))
                    (linspace vol_min vol_max 20)) []) 0
  = put_value (nth j (linspace price_min price_max 20) 0) K T r
              (nth i (linspace vol_min vol_max 20) 0).
Proof.
  intros Hi Hj.
  apply (nth_grid (fun p v => put_value p K T r v));
    now rewrite linspace_length.
Qed.

End HeatMaps.

(** X17: with K, T > 0, positive volatility bounds and
    0 < price_min <= price_max, the heat-map loops complete, and along
    every row (one volatility, prices from left to right) the call values
    never decrease and the put values never increase. *)
Theorem heat_map_rows_ordered
        (K T r vol_min vol_max price_min price_max : R) :
  0 < K -> 0 < T -> 0 < vol_min -> 0 < vol_max ->
  0 < price_min -> price_min <= price_max ->
  exists calls puts,
    heat_map_values K T r vol_min vol_max price_min price_max
    = Returned (calls, puts) /\
    forall i j1 j2, (i < 20)%nat -> (j1 <= j2)%nat -> (j2 < 20)%nat ->
      nth j1 (nth i calls []) 0 <= nth j2 (nth i calls []) 0 /\
      nth j2 (nth i puts []) 0 <= nth j1 (nth i puts []) 0.
Proof.
  intros HK HT Hvmin Hvmax Hpmin Hle.
  assert (Hpmax : 0 < price_max) by lra.
  rewrite heat_map_values_value by lra.
  do 2 eexists. split; [reflexivity|].
  intros i j1 j2 Hi Hj Hj2.
  rewrite !heat_map_call_cell, !heat_map_put_cell by lia.
  exact (call_at_monotone K T r _ HK HT
           (heat_map_vol_positive vol_min vol_max Hvmin Hvmax i Hi) _ _
           (heat_map_price_positive price_min price_max Hpmin Hpmax j1
              ltac:(lia))
           (linspace_monotone price_min price_max 20 j1 j2 0
              ltac:(lia) Hle Hj Hj2)).
Qed.

Lemma heat_map_rows_ordered_witness :
  (0 < 100 /\ 0 < 1 /\ 0 < 5 / 100 /\ 0 < 5 / 10 /\ 0 < 70 /\ 70 <= 130) /\
  exists calls puts,
    heat_map_values 100 1 (5 / 100) (5 / 100) (5 / 10) 70 130
    = Returned (calls, puts) /\
    forall i j1 j2, (i < 20)%nat -> (j1 <= j2)%nat -> (j2 < 20)%nat ->
      nth j1 (nth i calls []) 0 <= nth j2 (nth i calls []) 0 /\
      nth j2 (nth i puts []) 0 <= nth j1 (nth i puts []) 0.
Proof.
  assert (H1 : 0 < 100) by lra.
  assert (H2 : 0 < 1) by lra.
  assert (H3 : 0 < 5 / 100) by lra.
  assert (H4 : 0 < 5 / 10) by lra.
  assert (H5 : 0 < 70) by lra.
  assert (H6 : 70 <= 130) by lra.
  split; [repeat split; assumption|].
  exact (heat_map_rows_ordered 100 1 (5 / 100) (5 / 100) (5 / 10) 70 130
           H1 H2 H3 H4 H5 H6).
Defined.

(** X18: with K, T > 0, 0 < vol_min <= vol_max and positive price
    bounds, down every column (one price, volatilities from top to
    bottom) neither the call values nor the put values ever decrease. *)
Theorem heat_map_columns_ordered
        (K T r vol_min vol_max price_min price_max : R) :
  0 < K -> 0 < T -> 0 < vol_min -> vol_min <= vol_max ->
  0 < price_min -> 0 < price_max ->
  exists calls puts,
    heat_map_values K T r vol_min vol_max price_min price_max
    = Returned (calls, puts) /\
    forall i1 i2 j, (i1 <= i2)%nat -> (i2 < 20)%nat -> (j < 20)%nat ->
      nth j (nth i1 calls []) 0 <= nth j (nth i2 calls []) 0 /\
      nth j (nth i1 puts []) 0 <= nth j (nth i2 puts []) 0.
Proof.
  intros HK HT Hvmin Hle Hpmin Hpmax.
  assert (Hvmax : 0 < vol_max) by lra.
  rewrite heat_map_values_value by lra.
  do 2 eexists. split; [reflexivity|].
  intros i1 i2 j Hi Hi2 Hj.
  rewrite !heat_map_call_cell, !heat_map_put_cell by lia.
  pose proof (heat_map_price_positive price_min price_max Hpmin Hpmax j Hj)
    as Hp.
  pose proof (heat_map_vol_positive vol_min vol_max Hvmin Hvmax i1
                ltac:(lia)) as Hv1.
  pose proof (linspace_monotone vol_min vol_max 20 i1 i2 0
                ltac:(lia) Hle Hi Hi2) as [Hlt|Heq].
  - pose proof (values_increasing_in_volatility _ K T r _ _
                  Hp HK HT Hv1 Hlt) as [Hc Hq].
    split; lra.
  - rewrite Heq. split; lra.
Qed.

Lemma heat_map_columns_ordered_witness :
  (0 < 100 /\ 0 < 1 /\ 0 < 5 / 100 /\ 5 / 100 <= 5 / 10 /\ 0 < 70
   /\ 0 < 130) /\
  exists calls puts,
    heat_map_values 100 1 (5 / 100) (5 / 100) (5 / 10) 70 130
    = Returned (calls, puts) /\
    forall i1 i2 j, (i1 <= i2)%nat -> (i2 < 20)%nat -> (j < 20)%nat ->
      nth j (nth i1 calls []) 0 <= nth j (nth i2 calls []) 0 /\
      nth j (nth i1 puts []) 0 <= nth j (nth i2 puts []) 0.
Proof.
  assert (H1 : 0 < 100) by lra.
  assert (H2 : 0 < 1) by lra.
  assert (H3 : 0 < 5 / 100) by lra.
  assert (H4 : 5 / 100 <= 5 / 10) by lra.
  assert (H5 : 0 < 70) by lra.
  assert (H6 : 0 < 130) by lra.
  split; [repeat split; assumption|].
  exact (heat_map_columns_ordered 100 1 (5 / 100) (5 / 100) (5 / 10) 70 130
           H1 H2 H3 H4 H5 H6).
Defined.

(** X19: with K, T > 0 and positive volatility and price bounds, in
    every cell of the heat maps the call value minus the put value is the
    price of the column less K exp(-r T): the difference of the two maps
    is the same in every row. *)
Theorem heat_map_cell_parity
        (K T r vol_min vol_max price_min price_max : R) :
  0 < K -> 0 < T -> 0 < vol_min -> 0 < vol_max ->
  0 < price_min -> 0 < price_max ->
  exists calls puts,
    heat_map_values K T r vol_min vol_max price_min price_max
    = Returned (calls, puts) /\
    forall i j, (i < 20)%nat -> (j < 20)%nat ->
      nth j (nth i calls []) 0 - nth j (nth i puts []) 0
      = nth j (linspace price_min price_max 20) 0 - K * exp (- (r * T)).
Proof.
  intros HK HT _ _ _ _.
  rewrite heat_map_values_value by lra.
  do 2 eexists. split; [reflexivity|].
  intros i j Hi Hj.
  rewrite heat_map_call_cell, heat_map_put_cell by assumption.
  rewrite put_value_call_value, exp_discount. ring.
Qed.

Lemma heat_map_cell_parity_witness :
  (0 < 100 /\ 0 < 1 /\ 0 < 5 / 100 /\ 0 < 5 / 10 /\ 0 < 70 /\ 0 < 130) /\
  exists calls puts,
    heat_map_values 100 1 (5 / 100) (5 / 100) (5 / 10) 70 130
    = Returned (calls, puts) /\
    forall i j, (i < 20)%nat -> (j < 20)%nat ->
      nth j (nth i calls []) 0 - nth j (nth i puts []) 0
      = nth j (linspace 70 130 20) 0 - 100 * exp (- (5 / 100 * 1)).
Proof.
  assert (H1 : 0 < 100) by lra.
  assert (H2 : 0 < 1) by lra.
  assert (H3 : 0 < 5 / 100) by lra.
  assert (H4 : 0 < 5 / 10) by lra.
  assert (H5 : 0 < 70) by lra.
  assert (H6 : 0 < 130) by lra.
  split; [repeat split; assumption|].
  exact (heat_map_cell_parity 100 1 (5 / 100) (5 / 100) (5 / 10) 70 130
           H1 H2 H3 H4 H5 H6).
Defined.

Lemma nth_map_map (f : R -> R) (m : list (list R)) (i j : nat) :
  (i < List.length m)%nat -> (j < List.length (nth i m []))%nat ->
  nth j (nth i (map (map f) m) []) 0 = f (nth j (nth i m []) 0).
Proof.
  intros Hi Hj.
  replace (nth i (map (map f) m) []) with (map f (nth i m []))
    by (symmetry; apply (map_nth (map f) m [])).
  now apply nth_map_in.
Qed.

(** X20: with K, T > 0 and positive volatility and price bounds, the two
    heat maps are 20 by 20, no value is negative, and with P&L tracking
    enabled no displayed entry is below minus the purchase price. *)
Theorem heat_map_shape_and_floor
        (K T r vol_min vol_max price_min price_max : R) :
  0 < K -> 0 < T -> 0 < vol_min -> 0 < vol_max ->
  0 < price_min -> 0 < price_max ->
  exists calls puts,
    heat_map_values K T r vol_min vol_max price_min price_max
    = Returned (calls, puts) /\
    List.length calls = 20%nat /\ List.length puts = 20%nat /\
    forall i, (i < 20)%nat ->
      List.length (nth i calls []) = 20%nat /\
      List.length (nth i puts []) = 20%nat /\
      forall j, (j < 20)%nat ->
        0 <= nth j (nth i calls []) 0 /\ 0 <= nth j (nth i puts []) 0 /\
        forall purchase_price,
          - purchase_price
          <= nth j (nth i (heat_map_display true purchase_price calls) []) 0
          /\
          - purchase_price
          <= nth j (nth i (heat_map_display true purchase_price puts) []) 0.
Proof.
  intros HK HT Hvmin Hvmax Hpmin Hpmax.
  rewrite heat_map_values_value by lra.
  do 2 eexists. split; [reflexivity|].
  rewrite !length_map, !linspace_length.
  split; [reflexivity|]. split; [reflexivity|].
  intros i Hi.
  assert (Hrc : nth i (map (fun v => map (fun p => call_value p K T r v)
                                         (linspace price_min price_max 20))
                           (linspace vol_min vol_max 20)) []
                = map (fun p => call_value p K T r
                                  (nth i (linspace vol_min vol_max 20) 0))
                      (linspace price_min price_max 20)).
  { rewrite (nth_indep _ [] ((fun v => map (fun p => call_value p K T r v)
                                           (linspace price_min price_max 20))
                               0))
      by now rewrite length_map, linspace_length.
    apply (map_nth (fun v => map (fun p => call_value p K T r v)
                                 (linspace price_min price_max 20))). }
  assert (Hrp : nth i (map (fun v => map (fun p => put_value p K T r v)
                                         (linspace price_min price_max 20))
                           (linspace vol_min vol_max 20)) []
                = map (fun p => put_value p K T r
                                  (nth i (linspace vol_min vol_max 20) 0))
                      (linspace price_min price_max 20)).
  { rewrite (nth_indep _ [] ((fun v => map (fun p => put_value p K T r v)
                                           (linspace price_min price_max 20))
                               0))
      by now rewrite length_map, linspace_length.
    apply (map_nth (fun v => map (fun p => put_value p K T r v)
                                 (linspace price_min price_max 20))). }
  split; [now rewrite Hrc, length_map, linspace_length|].
  split; [now rewrite Hrp, length_map, linspace_length|].
  intros j Hj.
  pose proof (heat_map_price_positive price_min price_max Hpmin Hpmax j Hj)
    as Hp.
  pose proof (heat_map_vol_positive vol_min vol_max Hvmin Hvmax i Hi) as Hv.
  pose proof (call_value_nonneg _ K T r _ Hp HK HT Hv) as Hc.
  pose proof (put_value_nonneg _ K T r _ Hp HK HT Hv) as Hq.
  assert (Ec := heat_map_call_cell K T r vol_min vol_max price_min price_max
                  i j Hi Hj).
  assert (Ep := heat_map_put_cell K T r vol_min vol_max price_min price_max
                  i j Hi Hj).
  split; [rewrite Ec; exact Hc|]. split; [rewrite Ep; exact Hq|].
  intros q. unfold heat_map_display.
  rewrite !nth_map_map;
    rewrite ?Hrc, ?Hrp, ?length_map, ?linspace_length; try assumption.
  rewrite <- Hrc, <- Hrp, Ec, Ep. lra.
Qed.

Lemma heat_map_shape_and_floor_witness :
  (0 < 100 /\ 0 < 1 /\ 0 < 5 / 100 /\ 0 < 5 / 10 /\ 0 < 70 /\ 0 < 130) /\
  exists calls puts,
    heat_map_values 100 1 (5 / 100) (5 / 100) (5 / 10) 70 130
    = Returned (calls, puts) /\
    List.length calls = 20%nat /\ List.length puts = 20%nat /\
    forall i, (i < 20)%nat ->
      List.length (nth i calls []) = 20%nat /\
      List.length (nth i puts []) = 20%nat /\
      forall j, (j < 20)%nat ->
        0 <= nth j (nth i calls []) 0 /\ 0 <= nth j (nth i puts []) 0 /\
        forall purchase_price,
          - purchase_price
          <= nth j (nth i (heat_map_display true purchase_price calls) []) 0
          /\
          - purchase_price
          <= nth j (nth i (heat_map_display true purchase_price puts) []) 0.
Proof.
  assert (H1 : 0 < 100) by lra.
  assert (H2 : 0 < 1) by lra.
  assert (H3 : 0 < 5 / 100) by lra.
  assert (H4 : 0 < 5 / 10) by lra.
  assert (H5 : 0 < 70) by lra.
  assert (H6 : 0 < 130) by lra.
  split; [repeat split; assumption|].
  exact (heat_map_shape_and_floor 100 1 (5 / 100) (5 / 100) (5 / 10) 70 130
           H1 H2 H3 H4 H5 H6).
Defined.

(** ** The payoff diagrams *)

Lemma stock_prices_payoff_length S : List.length (stock_prices_payoff S) = 100%nat.
Proof. apply linspace_length. Qed.

Lemma call_payoffs_nth S K j :
  (j < 100)%nat ->
  nth j (call_payoffs S K) 0 = Rmax (nth j (stock_prices_payoff S) 0 - K) 0.
Proof.
  intros Hj. unfold call_payoffs.
  apply (nth_map_in (fun p => Rmax (p - K) 0)).
  now rewrite stock_prices_payoff_length.
Qed.

Lemma put_payoffs_nth S K j :
  (j < 100)%nat ->
  nth j (put_payoffs S K) 0 = Rmax (K - nth j (stock_prices_payoff S) 0) 0.
Proof.
  intros Hj. unfold put_payoffs.
  apply (nth_map_in (fun p => Rmax (K - p) 0)).
  now rewrite stock_prices_payoff_length.
Qed.

(** X21: every point of the payoff diagrams is what the engine returns at
    expiry: for the j-th price of the axis, [call_price] and [put_price]
    on the snapshot with that price, the strike K and T = 0 return the
    j-th entries of [call_payoffs] and [put_payoffs]. *)
Theorem payoff_diagram_is_expiry_price (S K r sigma : R) (j : nat) :
  (j < 100)%nat ->
  BlackScholes.call_price
    (BlackScholes.__init__ (nth j (stock_prices_payoff S) 0) K 0 r sigma)
  = Returned (nth j (call_payoffs S K) 0) /\
  BlackScholes.put_price
    (BlackScholes.__init__ (nth j (stock_prices_payoff S) 0) K 0 r sigma)
  = Returned (nth j (put_payoffs S K) 0).
Proof.
  intros Hj. rewrite call_payoffs_nth, put_payoffs_nth by assumption.
  unfold BlackScholes.call_price, BlackScholes.put_price.
  cbn [BlackScholes.T BlackScholes.S BlackScholes.K].
  destruct (Rle_dec 0 0) as [_|Hn]; [|exfalso; lra].
  rewrite !py_max_Rmax, !(Rmax_comm 0). split; reflexivity.
Qed.

Lemma payoff_diagram_is_expiry_price_witness :
  (0 < 100)%nat /\
  BlackScholes.call_price
    (BlackScholes.__init__ (nth 0 (stock_prices_payoff 100) 0) 100 0
                           (5 / 100) (2 / 10))
  = Returned (nth 0 (call_payoffs 100 100) 0) /\
  BlackScholes.put_price
    (BlackScholes.__init__ (nth 0 (stock_prices_payoff 100) 0) 100 0
                           (5 / 100) (2 / 10))
  = Returned (nth 0 (put_payoffs 100 100) 0).
Proof.
  assert (H : (0 < 100)%nat) by lia.
  split; [exact H|].
  exact (payoff_diagram_is_expiry_price 100 100 (5 / 100) (2 / 10) 0 H).
Defined.

(** X22: the price axis of the payoff diagrams has 100 points running
    from S / 2 to 3 S / 2; at each of them the call payoff less the put
    payoff is the price less K, and the P&L entries are the payoffs less
    the purchase price, so never below minus that price. *)
Theorem payoff_axis_and_floor (S K purchase_price : R) (j : nat) :
  (j < 100)%nat ->
  List.length (stock_prices_payoff S) = 100%nat /\
  nth 0 (stock_prices_payoff S) 0 = S / 2 /\
  nth 99 (stock_prices_payoff S) 0 = 3 * S / 2 /\
  nth j (call_payoffs S K) 0 - nth j (put_payoffs S K) 0
  = nth j (stock_prices_payoff S) 0 - K /\
  nth j (pnl (call_payoffs S K) purchase_price) 0
  = nth j (call_payoffs S K) 0 - purchase_price /\
  nth j (pnl (put_payoffs S K) purchase_price) 0
  = nth j (put_payoffs S K) 0 - purchase_price /\
  - purchase_price <= nth j (pnl (call_payoffs S K) purchase_price) 0 /\
  - purchase_price <= nth j (pnl (put_payoffs S K) purchase_price) 0.
Proof.
  intros Hj.
  assert (Hc : nth j (pnl (call_payoffs S K) purchase_price) 0
               = nth j (call_payoffs S K) 0 - purchase_price).
  { unfold pnl. apply (nth_map_in (fun v => v - purchase_price)).
    unfold call_payoffs. now rewrite length_map, stock_prices_payoff_length. }
  assert (Hp : nth j (pnl (put_payoffs S K) purchase_price) 0
               = nth j (put_payoffs S K) 0 - purchase_price).
  { unfold pnl. apply (nth_map_in (fun v => v - purchase_price)).
    unfold put_payoffs. now rewrite length_map, stock_prices_payoff_length. }
  split; [apply stock_prices_payoff_length|].
  split; [unfold stock_prices_payoff; rewrite linspace_first by lia; lra|].
  split.
  { unfold stock_prices_payoff.
    rewrite (linspace_last _ _ 100 0) by lia. lra. }
  rewrite Hc, Hp, call_payoffs_nth, put_payoffs_nth by assumption.
  set (p := nth j (stock_prices_payoff S) 0).
  unfold Rmax.
  destruct (Rle_dec (p - K) 0), (Rle_dec (K - p) 0); repeat split; lra.
Qed.

Lemma payoff_axis_and_floor_witness :
  (50 < 100)%nat /\
  List.length (stock_prices_payoff 100) = 100%nat /\
  nth 0 (stock_prices_payoff 100) 0 = 100 / 2 /\
  nth 99 (stock_prices_payoff 100) 0 = 3 * 100 / 2 /\
  nth 50 (call_payoffs 100 100) 0 - nth 50 (put_payoffs 100 100) 0
  = nth 50 (stock_prices_payoff 100) 0 - 100 /\
  nth 50 (pnl (call_payoffs 100 100) 10) 0
  = nth 50 (call_payoffs 100 100) 0 - 10 /\
  nth 50 (pnl (put_payoffs 100 100) 10) 0
  = nth 50 (put_payoffs 100 100) 0 - 10 /\
  - 10 <= nth 50 (pnl (call_payoffs 100 100) 10) 0 /\
  - 10 <= nth 50 (pnl (put_payoffs 100 100) 10) 0.
Proof.
  assert (H : (50 < 100)%nat) by lia.
  split; [exact H|].
  exact (payoff_axis_and_floor 100 100 10 50 H).
Defined.

(** * Continuity of the prices at expiry *)

Lemma norm_cdf_tail_sq x : 0 < x -> norm_cdf (- x) <= 2 / x ^ 2.
Proof.
  intros Hx.
  eapply Rle_trans; [apply norm_cdf_lower_tail; lra|].
  replace (- x ^ 2 / 2) with (- (x ^ 2 / 2)) by field.
  rewrite exp_Ropp.
  pose proof (exp_ineq1_le (x ^ 2 / 2)) as He.
  assert (Hxx : 0 < x ^ 2) by nra.
  assert (Hle : x ^ 2 / 2 <= exp (x ^ 2 / 2)) by lra.
  assert (Hinv : / exp (x ^ 2 / 2) <= / (x ^ 2 / 2))
    by (apply Rinv_le_contravar; lra).
  replace (2 / x ^ 2) with (/ (x ^ 2 / 2)) by (field; lra).
  exact Hinv.
Qed.

Lemma norm_pdf_le_1 x : norm_pdf x <= 1.
Proof.
  unfold norm_pdf.
  pose proof sqrt_2PI_pos as Hp. pose proof sqrt_2PI_half as Eh.
  pose proof PI2_1 as Hpi.
  assert (Hs : 1 < sqrt (PI / 2)).
  { rewrite <- sqrt_1. apply sqrt_lt_1; lra. }
  assert (He : exp (- x ^ 2 / 2) <= 1).
  { rewrite <- exp_0.
    assert (Hle : - x ^ 2 / 2 <= 0) by nra.
    destruct Hle as [Hlt|Heq];
      [left; now apply exp_increasing | rewrite Heq; lra]. }
  apply Rmult_le_reg_r with (sqrt (2 * PI)); [assumption|].
  unfold Rdiv. rewrite Rmult_assoc, Rinv_l by lra. lra.
Qed.

Lemma norm_cdf_lipschitz a b : a <= b -> norm_cdf b - norm_cdf a <= b - a.
Proof.
  intros [Hlt|Heq]; [|subst; lra].
  destruct (MVT_cor2 norm_cdf norm_pdf a b Hlt (fun c _ => norm_cdf_deriv c))
    as [c [E _]].
  pose proof (norm_pdf_le_1 c). nra.
Qed.

Lemma exp_near_one x : Rabs x <= 1 / 2 -> Rabs (exp x - 1) <= 2 * Rabs x.
Proof.
  intros Hx.
  pose proof (exp_ineq1_le x) as Hlo.
  pose proof (exp_ineq1_le (- x)) as Hhi. rewrite exp_Ropp in Hhi.
  pose proof (exp_pos x) as Hpos.
  assert (Hinv : / exp x * exp x = 1) by (apply Rinv_l; lra).
  destruct (Rle_dec 0 x) as [H0|H0].
  - rewrite (Rabs_pos_eq x) in * by assumption.
    rewrite Rabs_pos_eq by lra.
    assert (exp x * (1 - x) <= 1) by nra.
    nra.
  - rewrite (Rabs_left x) in * by lra.
    assert (exp x <= 1).
    { rewrite <- exp_0. left. apply exp_increasing. lra. }
    rewrite Rabs_left1 by lra. lra.
Qed.

Section NearExpiry.

Variables s k rr sg t : R.
Hypothesis Hs : 0 < s.
Hypothesis Hk : 0 < k.
Hypothesis Hsg : 0 < sg.
Hypothesis Ht : 0 < t.
Hypothesis Hrt : Rabs rr * t <= 1 / 2.

Lemma discount_near_one : Rabs (exp (- rr * t) - 1) <= 2 * (Rabs rr * t).
Proof.
  assert (E : Rabs (- rr * t) = Rabs rr * t).
  { rewrite Rabs_mult, Rabs_Ropp, (Rabs_pos_eq t); lra. }
  rewrite <- E. apply exp_near_one. rewrite E. exact Hrt.
Qed.

Lemma d2_value_expand :
  d1_value s k t rr sg - sg * sqrt t
  = (ln (s / k) + (rr - 1 / 2 * sg ^ 2) * t) / (sg * sqrt t).
Proof.
  assert (Hq : 0 < sqrt t) by now apply sqrt_lt_R0.
  assert (Hsq : sqrt t * sqrt t = t) by (apply sqrt_sqrt; lra).
  unfold d1_value.
  replace ((ln (s / k) + (rr + 1 / 2 * sg ^ 2) * t) / (sg * sqrt t)
           - sg * sqrt t)
    with ((ln (s / k) + (rr + 1 / 2 * sg ^ 2) * t
           - sg ^ 2 * (sqrt t * sqrt t)) / (sg * sqrt t))
    by (field; lra).
  rewrite Hsq. f_equal. field.
Qed.

(** Where the argument is at least [L / 2] standard deviations to the
    left, the distribution function is of the order of t. *)
Lemma norm_cdf_far L z :
  0 < L -> z <= - (L / 2 / (sg * sqrt t)) ->
  norm_cdf z <= 8 * sg ^ 2 * t / L ^ 2.
Proof.
  intros HL Hz.
  assert (Hq : 0 < sqrt t) by now apply sqrt_lt_R0.
  assert (Hsq : sqrt t * sqrt t = t) by (apply sqrt_sqrt; lra).
  assert (Hx : 0 < L / 2 / (sg * sqrt t)).
  { apply Rdiv_lt_0_compat; [lra|]. now apply Rmult_lt_0_compat. }
  eapply Rle_trans; [apply (norm_cdf_monotone _ _ Hz)|].
  eapply Rle_trans; [apply norm_cdf_tail_sq; exact Hx|].
  right.
  replace (8 * sg ^ 2 * t) with (8 * sg ^ 2 * (sqrt t * sqrt t))
    by now rewrite Hsq.
  field. repeat split; lra.
Qed.

Lemma call_near_expiry_in_the_money :
  k < s -> Rabs (rr - 1 / 2 * sg ^ 2) * t <= ln (s / k) / 2 ->
  Rabs (call_value s k t rr sg - (s - k))
  <= 16 * k * sg ^ 2 * t / ln (s / k) ^ 2 + 2 * k * (Rabs rr * t).
Proof.
  intros Hks Hb.
  assert (Hq : 0 < sqrt t) by now apply sqrt_lt_R0.
  assert (Hv : 0 < sg * sqrt t) by now apply Rmult_lt_0_compat.
  assert (HL : 0 < ln (s / k)).
  { rewrite <- ln_1. apply ln_increasing; [lra|].
    apply Rmult_lt_reg_r with k; [assumption|].
    unfold Rdiv. rewrite Rmult_assoc, Rinv_l by lra. lra. }
  set (L := ln (s / k)) in *.
  pose proof discount_near_one as He.
  pose proof (exp_pos (- rr * t)) as Hep.
  assert (He' : - (2 * (Rabs rr * t)) <= exp (- rr * t) - 1
                <= 2 * (Rabs rr * t)).
  { pose proof (Rle_abs (exp (- rr * t) - 1)) as H1.
    pose proof (Rle_abs (- (exp (- rr * t) - 1))) as H2.
    rewrite Rabs_Ropp in H2. lra. }
  assert (Hd2 : - (d1_value s k t rr sg - sg * sqrt t)
                <= - (L / 2 / (sg * sqrt t))).
  { rewrite d2_value_expand. fold L.
    apply Ropp_le_contravar. unfold Rdiv at 1 3.
    apply Rmult_le_compat_r; [left; now apply Rinv_0_lt_compat|].
    pose proof (Rle_abs (- (rr - 1 / 2 * sg ^ 2))) as Ha.
    rewrite Rabs_Ropp in Ha.
    assert (- (rr - 1 / 2 * sg ^ 2) * t <= Rabs (rr - 1 / 2 * sg ^ 2) * t)
      by (apply Rmult_le_compat_r; lra).
    lra. }
  pose proof (norm_cdf_far L _ HL Hd2) as Hfar.
  pose proof (put_value_nonneg s k t rr sg Hs Hk Ht Hsg) as Hp0.
  pose proof (put_value_call_value s k t rr sg) as Epar.
  assert (Hpu : put_value s k t rr sg
                <= k * exp (- rr * t) * (8 * sg ^ 2 * t / L ^ 2)).
  { unfold put_value.
    pose proof (norm_cdf_range (- d1_value s k t rr sg)) as Hr.
    assert (0 <= s * norm_cdf (- d1_value s k t rr sg))
      by (apply Rmult_le_pos; lra).
    assert (k * exp (- rr * t)
            * norm_cdf (- (d1_value s k t rr sg - sg * sqrt t))
            <= k * exp (- rr * t) * (8 * sg ^ 2 * t / L ^ 2)).
    { apply Rmult_le_compat_l; [|assumption].
      apply Rmult_le_pos; lra. }
    lra. }
  assert (Hq8 : 0 <= 8 * sg ^ 2 * t / L ^ 2).
  { apply Rmult_le_pos; [nra|]. left. apply Rinv_0_lt_compat. nra. }
  assert (Hex : exp (- rr * t) <= 2) by lra.
  assert (Hpu2 : put_value s k t rr sg <= 16 * k * sg ^ 2 * t / L ^ 2).
  { eapply Rle_trans; [exact Hpu|].
    replace (16 * k * sg ^ 2 * t / L ^ 2)
      with (k * 2 * (8 * sg ^ 2 * t / L ^ 2)) by (unfold Rdiv; ring).
    apply Rmult_le_compat_r; [assumption|]. nra. }
  apply Rabs_le.
  assert (Hkk : - (2 * k * (Rabs rr * t)) <= k * (exp (- rr * t) - 1)
                <= 2 * k * (Rabs rr * t)) by nra.
  assert (0 <= 16 * k * sg ^ 2 * t / L ^ 2) by lra.
  split; lra.
Qed.

Lemma call_near_expiry_out_of_the_money :
  s < k -> Rabs (rr + 1 / 2 * sg ^ 2) * t <= - ln (s / k) / 2 ->
  0 <= call_value s k t rr sg <= 8 * s * sg ^ 2 * t / ln (s / k) ^ 2.
Proof.
  intros Hsk Ha.
  assert (Hq : 0 < sqrt t) by now apply sqrt_lt_R0.
  assert (Hv : 0 < sg * sqrt t) by now apply Rmult_lt_0_compat.
  assert (HL : ln (s / k) < 0).
  { rewrite <- ln_1. apply ln_increasing; [now apply Rdiv_lt_0_compat|].
    apply Rmult_lt_reg_r with k; [assumption|].
    unfold Rdiv. rewrite Rmult_assoc, Rinv_l by lra. lra. }
  set (L := ln (s / k)) in *.
  assert (Hd1 : d1_value s k t rr sg <= - (- L / 2 / (sg * sqrt t))).
  { unfold d1_value. fold L.
    replace (- (- L / 2 / (sg * sqrt t))) with (L / 2 / (sg * sqrt t))
      by (field; lra).
    unfold Rdiv at 1 3.
    apply Rmult_le_compat_r; [left; now apply Rinv_0_lt_compat|].
    pose proof (Rle_abs (rr + 1 / 2 * sg ^ 2)) as Hab.
    assert ((rr + 1 / 2 * sg ^ 2) * t <= Rabs (rr + 1 / 2 * sg ^ 2) * t)
      by (apply Rmult_le_compat_r; lra).
    lra. }
  assert (HL' : 0 < - L) by lra.
  pose proof (norm_cdf_far (- L) _ HL' Hd1) as Hfar.
  replace ((- L) ^ 2) with (L ^ 2) in Hfar by ring.
  split; [now apply call_value_nonneg|].
  unfold call_value.
  pose proof (norm_cdf_range (d1_value s k t rr sg - sg * sqrt t)) as Hr.
  pose proof (exp_pos (- rr * t)) as Hep.
  assert (0 <= k * exp (- rr * t)
               * norm_cdf (d1_value s k t rr sg - sg * sqrt t))
    by (apply Rmult_le_pos; [apply Rmult_le_pos|]; lra).
  assert (s * norm_cdf (d1_value s k t rr sg)
          <= s * (8 * sg ^ 2 * t / L ^ 2))
    by (apply Rmult_le_compat_l; lra).
  replace (8 * s * sg ^ 2 * t / L ^ 2) with (s * (8 * sg ^ 2 * t / L ^ 2))
    by (unfold Rdiv; ring).
  lra.
Qed.

Lemma call_near_expiry_at_the_money :
  s = k ->
  0 <= call_value s k t rr sg <= s * (sg * sqrt t) + 2 * s * (Rabs rr * t).
Proof.
  intros Esk.
  assert (Hq : 0 < sqrt t) by now apply sqrt_lt_R0.
  assert (Hv : 0 < sg * sqrt t) by now apply Rmult_lt_0_compat.
  split; [now apply call_value_nonneg|].
  unfold call_value. rewrite <- Esk.
  set (d1 := d1_value s s t rr sg).
  pose proof discount_near_one as He.
  pose proof (norm_cdf_lipschitz (d1 - sg * sqrt t) d1 ltac:(lra)) as Hl.
  pose proof (norm_cdf_range (d1 - sg * sqrt t)) as Hr.
  assert (He' : - (2 * (Rabs rr * t)) <= exp (- rr * t) - 1
                <= 2 * (Rabs rr * t)).
  { pose proof (Rle_abs (exp (- rr * t) - 1)) as H1.
    pose proof (Rle_abs (- (exp (- rr * t) - 1))) as H2.
    rewrite Rabs_Ropp in H2. lra. }
  replace (s * norm_cdf d1 - s * exp (- rr * t) * norm_cdf (d1 - sg * sqrt t))
    with (s * (norm_cdf d1 - norm_cdf (d1 - sg * sqrt t))
          + s * ((1 - exp (- rr * t)) * norm_cdf (d1 - sg * sqrt t)))
    by ring.
  assert (H1 : s * (norm_cdf d1 - norm_cdf (d1 - sg * sqrt t))
               <= s * (sg * sqrt t))
    by (apply Rmult_le_compat_l; lra).
  assert (H2 : (1 - exp (- rr * t)) * norm_cdf (d1 - sg * sqrt t)
               <= 2 * (Rabs rr * t)).
  { assert (0 <= Rabs rr * t)
      by (apply Rmult_le_pos; [apply Rabs_pos | lra]).
    nra. }
  assert (H3 : s * ((1 - exp (- rr * t)) * norm_cdf (d1 - sg * sqrt t))
               <= s * (2 * (Rabs rr * t)))
    by (apply Rmult_le_compat_l; lra).
  lra.
Qed.

End NearExpiry.

Lemma small_multiple (A B t : R) :
  0 <= A -> 0 < B -> 0 < t -> t < B / (A + 1) -> A * t < B.
Proof.
  intros HA HB Ht Hlt.
  assert (H : t * (A + 1) < B).
  { apply Rmult_lt_reg_r with (/ (A + 1));
      [apply Rinv_0_lt_compat; lra|].
    rewrite Rmult_assoc, Rinv_r by lra. unfold Rdiv in Hlt. lra. }
  nra.
Qed.

Lemma sqrt_small (e t : R) : 0 < e -> 0 < t -> t < e ^ 2 -> sqrt t < e.
Proof.
  intros He Ht Hlt.
  destruct (Rlt_dec (sqrt t) e) as [H|H]; [assumption|].
  exfalso. assert (Hge : e <= sqrt t) by lra.
  assert (Hsq : sqrt t * sqrt t = t) by (apply sqrt_sqrt; lra).
  nra.
Qed.

(** As T decreases to 0 the value of the call tends to the intrinsic
    value. *)
Lemma call_value_expiry_limit (s k rr sg : R) :
  0 < s -> 0 < k -> 0 < sg ->
  forall eps, 0 < eps ->
  exists delta, 0 < delta /\
    forall t, 0 < t -> t < delta ->
      Rabs (rr) * t <= 1 / 2 /\
      Rabs (call_value s k t rr sg - Rmax 0 (s - k)) < eps.
Proof.
  intros Hs Hk Hsg eps Heps.
  pose proof (Rabs_pos rr) as Hr0.
  set (d0 := (1 / 2) / (Rabs rr + 1)).
  assert (Hd0 : 0 < d0) by (apply Rdiv_lt_0_compat; lra).
  assert (Hrr : forall t, 0 < t -> t < d0 -> Rabs rr * t <= 1 / 2).
  { intros t Ht Hlt. left. apply small_multiple; try assumption; lra. }
  destruct (Rtotal_order s k) as [Hlt|[Heq|Hgt]].
  - (* out of the money *)
    assert (HL : ln (s / k) < 0).
    { rewrite <- ln_1. apply ln_increasing; [now apply Rdiv_lt_0_compat|].
      apply Rmult_lt_reg_r with k; [assumption|].
      unfold Rdiv. rewrite Rmult_assoc, Rinv_l by lra. lra. }
    set (L := ln (s / k)) in *.
    pose proof (Rabs_pos (rr + 1 / 2 * sg ^ 2)) as Ha0.
    set (C := 8 * s * sg ^ 2 / L ^ 2).
    assert (HC : 0 <= C).
    { unfold C. apply Rmult_le_pos; [nra|].
      left. apply Rinv_0_lt_compat. nra. }
    set (d1 := (- L / 2) / (Rabs (rr + 1 / 2 * sg ^ 2) + 1)).
    set (d2 := eps / (C + 1)).
    assert (Hd1 : 0 < d1) by (apply Rdiv_lt_0_compat; lra).
    assert (Hd2 : 0 < d2) by (apply Rdiv_lt_0_compat; lra).
    exists (Rmin d0 (Rmin d1 d2)).
    split; [repeat apply Rmin_pos; assumption|].
    intros t Ht Hlt'.
    assert (Ht0 : t < d0) by (eapply Rlt_le_trans; [exact Hlt' | apply Rmin_l]).
    assert (Ht1 : t < d1).
    { eapply Rlt_le_trans; [exact Hlt'|].
      eapply Rle_trans; [apply Rmin_r | apply Rmin_l]. }
    assert (Ht2 : t < d2).
    { eapply Rlt_le_trans; [exact Hlt'|].
      eapply Rle_trans; [apply Rmin_r | apply Rmin_r]. }
    split; [now apply Hrr|].
    assert (Hcond : Rabs (rr + 1 / 2 * sg ^ 2) * t <= - L / 2).
    { left. apply small_multiple; try assumption; lra. }
    pose proof (call_near_expiry_out_of_the_money s k rr sg t
                  Hs Hk Hsg Ht Hlt Hcond) as [Hc0 Hcu].
    fold L in Hcu.
    replace (8 * s * sg ^ 2 * t / L ^ 2) with (C * t) in Hcu
      by (unfold C, Rdiv; ring).
    pose proof (small_multiple C eps t HC Heps Ht Ht2) as Hsm.
    rewrite Rmax_left by lra.
    rewrite Rminus_0_r, Rabs_pos_eq by assumption. lra.
  - (* at the money *)
    set (e1 := (eps / 2) / (s * sg + 1)).
    assert (Hssg : 0 < s * sg) by now apply Rmult_lt_0_compat.
    assert (He1 : 0 < e1) by (apply Rdiv_lt_0_compat; lra).
    set (C := 2 * s * Rabs rr).
    assert (HC : 0 <= C) by (unfold C; nra).
    set (d2 := (eps / 2) / (C + 1)).
    assert (Hd2 : 0 < d2) by (apply Rdiv_lt_0_compat; lra).
    assert (He12 : 0 < e1 ^ 2) by nra.
    exists (Rmin d0 (Rmin (e1 ^ 2) d2)).
    split; [repeat apply Rmin_pos; assumption|].
    intros t Ht Hlt'.
    assert (Ht0 : t < d0) by (eapply Rlt_le_trans; [exact Hlt' | apply Rmin_l]).
    assert (Ht1 : t < e1 ^ 2).
    { eapply Rlt_le_trans; [exact Hlt'|].
      eapply Rle_trans; [apply Rmin_r | apply Rmin_l]. }
    assert (Ht2 : t < d2).
    { eapply Rlt_le_trans; [exact Hlt'|].
      eapply Rle_trans; [apply Rmin_r | apply Rmin_r]. }
    split; [now apply Hrr|].
    pose proof (call_near_expiry_at_the_money s k rr sg t
                  Hs Hk Hsg Ht (Hrr t Ht Ht0) Heq) as [Hc0 Hcu].
    pose proof (sqrt_small e1 t He1 Ht Ht1) as Hsq.
    assert (Hq : 0 < sqrt t) by now apply sqrt_lt_R0.
    assert (Hfirst : s * (sg * sqrt t) < eps / 2).
    { assert (s * sg * sqrt t < s * sg * e1)
        by (apply Rmult_lt_compat_l; assumption).
      assert (s * sg * e1 < eps / 2).
      { pose proof (small_multiple (s * sg) (eps / 2) e1) as Hm.
        rewrite Rmult_comm. rewrite Rmult_comm in Hm.
        assert (e1 * (s * sg + 1) = eps / 2)
          by (unfold e1; field; lra).
        nra. }
      lra. }
    assert (Hsecond : C * t < eps / 2)
      by (apply small_multiple; try assumption; lra).
    replace (2 * s * (Rabs rr * t)) with (C * t) in Hcu
      by (unfold C; ring).
    replace (Rmax 0 (s - k)) with 0 by (rewrite Rmax_left; lra).
    rewrite Rminus_0_r, Rabs_pos_eq by assumption. lra.
  - (* in the money *)
    assert (HL : 0 < ln (s / k)).
    { rewrite <- ln_1. apply ln_increasing; [lra|].
      apply Rmult_lt_reg_r with k; [assumption|].
      unfold Rdiv. rewrite Rmult_assoc, Rinv_l by lra. lra. }
    set (L := ln (s / k)) in *.
    pose proof (Rabs_pos (rr - 1 / 2 * sg ^ 2)) as Hb0.
    set (C := 16 * k * sg ^ 2 / L ^ 2 + 2 * k * Rabs rr).
    assert (HC : 0 <= C).
    { unfold C.
      assert (0 <= 16 * k * sg ^ 2 / L ^ 2).
      { apply Rmult_le_pos; [nra|].
        left. apply Rinv_0_lt_compat. nra. }
      nra. }
    set (d1 := (L / 2) / (Rabs (rr - 1 / 2 * sg ^ 2) + 1)).
    set (d2 := eps / (C + 1)).
    assert (Hd1 : 0 < d1) by (apply Rdiv_lt_0_compat; lra).
    assert (Hd2 : 0 < d2) by (apply Rdiv_lt_0_compat; lra).
    exists (Rmin d0 (Rmin d1 d2)).
    split; [repeat apply Rmin_pos; assumption|].
    intros t Ht Hlt'.
    assert (Ht0 : t < d0) by (eapply Rlt_le_trans; [exact Hlt' | apply Rmin_l]).
    assert (Ht1 : t < d1).
    { eapply Rlt_le_trans; [exact Hlt'|].
      eapply Rle_trans; [apply Rmin_r | apply Rmin_l]. }
    assert (Ht2 : t < d2).
    { eapply Rlt_le_trans; [exact Hlt'|].
      eapply Rle_trans; [apply Rmin_r | apply Rmin_r]. }
    split; [now apply Hrr|].
    assert (Hcond : Rabs (rr - 1 / 2 * sg ^ 2) * t <= L / 2).
    { left. apply small_multiple; try assumption; lra. }
    pose proof (call_near_expiry_in_the_money s k rr sg t
                  Hs Hk Hsg Ht (Hrr t Ht Ht0) Hgt Hcond) as Hb.
    fold L in Hb.
    replace (16 * k * sg ^ 2 * t / L ^ 2 + 2 * k * (Rabs rr * t))
      with (C * t) in Hb by (unfold C, Rdiv; ring).
    pose proof (small_multiple C eps t HC Heps Ht Ht2) as Hsm.
    rewrite Rmax_right by lra. lra.
Qed.

Lemma Rmax_flip (s k : R) : Rmax 0 (k - s) = Rmax 0 (s - k) - (s - k).
Proof.
  unfold Rmax. destruct (Rle_dec 0 (k - s)), (Rle_dec 0 (s - k)); lra.
Qed.

(** X23: the prices are continuous at expiry.  For S, K, sigma > 0 and
    every tolerance eps > 0 there is a time delta > 0 such that for every
    time to maturity 0 < T < delta the call and the put returned differ by
    less than eps from those returned at T = 0, max(0, S - K) and
    max(0, K - S). *)
Theorem prices_continuous_at_expiry (S0 K0 r0 sigma0 eps : R) :
  0 < S0 -> 0 < K0 -> 0 < sigma0 -> 0 < eps ->
  exists delta, 0 < delta /\
    forall T0, 0 < T0 -> T0 < delta ->
      exists c p c0 p0,
        BlackScholes.call_price (BlackScholes.__init__ S0 K0 T0 r0 sigma0)
        = Returned c /\
        BlackScholes.put_price (BlackScholes.__init__ S0 K0 T0 r0 sigma0)
        = Returned p /\
        BlackScholes.call_price (BlackScholes.__init__ S0 K0 0 r0 sigma0)
        = Returned c0 /\
        BlackScholes.put_price (BlackScholes.__init__ S0 K0 0 r0 sigma0)
        = Returned p0 /\
        Rabs (c - c0) < eps /\ Rabs (p - p0) < eps.
Proof.
  intros HS HK Hsg Heps.
  assert (He2 : 0 < eps / 2) by lra.
  destruct (call_value_expiry_limit S0 K0 r0 sigma0 HS HK Hsg (eps / 2) He2)
    as [d1 [Hd1 Hlim]].
  pose proof (Rabs_pos r0) as Hr0.
  set (C := 2 * K0 * Rabs r0).
  assert (HC : 0 <= C) by (unfold C; nra).
  set (d2 := (eps / 2) / (C + 1)).
  assert (Hd2 : 0 < d2) by (apply Rdiv_lt_0_compat; lra).
  exists (Rmin d1 d2). split; [now apply Rmin_pos|].
  intros T0 HT Hlt.
  assert (Ht1 : T0 < d1) by (eapply Rlt_le_trans; [exact Hlt | apply Rmin_l]).
  assert (Ht2 : T0 < d2) by (eapply Rlt_le_trans; [exact Hlt | apply Rmin_r]).
  destruct (Hlim T0 HT Ht1) as [Hrt Hc].
  exists (call_value S0 K0 T0 r0 sigma0), (put_value S0 K0 T0 r0 sigma0),
         (Rmax 0 (S0 - K0)), (Rmax 0 (K0 - S0)).
  split; [apply call_price_value; lra|].
  split; [apply put_price_value; lra|].
  split.
  { unfold BlackScholes.call_price.
    cbn [BlackScholes.T BlackScholes.S BlackScholes.K].
    destruct (Rle_dec 0 0) as [_|Hn]; [|exfalso; lra].
    now rewrite py_max_Rmax. }
  split.
  { unfold BlackScholes.put_price.
    cbn [BlackScholes.T BlackScholes.S BlackScholes.K].
    destruct (Rle_dec 0 0) as [_|Hn]; [|exfalso; lra].
    now rewrite py_max_Rmax. }
  split; [lra|].
  rewrite put_value_call_value, Rmax_flip.
  pose proof (discount_near_one r0 T0 HT Hrt) as He.
  pose proof (small_multiple C (eps / 2) T0 HC He2 HT Ht2) as Hsm.
  replace (call_value S0 K0 T0 r0 sigma0 - S0 + K0 * exp (- r0 * T0)
           - (Rmax 0 (S0 - K0) - (S0 - K0)))
    with ((call_value S0 K0 T0 r0 sigma0 - Rmax 0 (S0 - K0))
          + K0 * (exp (- r0 * T0) - 1)) by ring.
  eapply Rle_lt_trans; [apply Rabs_triang|].
  rewrite Rabs_mult, (Rabs_pos_eq K0) by lra.
  assert (K0 * Rabs (exp (- r0 * T0) - 1) <= C * T0).
  { unfold C.
    replace (2 * K0 * Rabs r0 * T0) with (K0 * (2 * (Rabs r0 * T0))) by ring.
    apply Rmult_le_compat_l; lra. }
  lra.
Qed.

Lemma prices_continuous_at_expiry_witness :
  (0 < 110 /\ 0 < 100 /\ 0 < 2 / 10 /\ 0 < 1 / 100) /\
  exists delta, 0 < delta /\
    forall T0, 0 < T0 -> T0 < delta ->
      exists c p c0 p0,
        BlackScholes.call_price
          (BlackScholes.__init__ 110 100 T0 (5 / 100) (2 / 10))
        = Returned c /\
        BlackScholes.put_price
          (BlackScholes.__init__ 110 100 T0 (5 / 100) (2 / 10))
        = Returned p /\
        BlackScholes.call_price
          (BlackScholes.__init__ 110 100 0 (5 / 100) (2 / 10))
        = Returned c0 /\
        BlackScholes.put_price
          (BlackScholes.__init__ 110 100 0 (5 / 100) (2 / 10))
        = Returned p0 /\
        Rabs (c - c0) < 1 / 100 /\ Rabs (p - p0) < 1 / 100.
Proof.
  assert (H1 : 0 < 110) by lra.
  assert (H2 : 0 < 100) by lra.
  assert (H3 : 0 < 2 / 10) by lra.
  assert (H4 : 0 < 1 / 100) by lra.
  split; [repeat split; assumption|].
  exact (prices_continuous_at_expiry 110 100 (5 / 100) (2 / 10) (1 / 100)
           H1 H2 H3 H4).
Defined.

(** * The default ranges of the heat maps *)

(** The [value] arguments of the four range inputs of the sidebar, as
    functions of the volatility and of the stock price chosen above them.
    The two volatility inputs declare [min_value = 0.01] and
    [max_value = 2.0], the two price inputs [min_value = 1.0] and
    [max_value = 10000.0]; the volatility slider runs over [0.01, 2.0] and
    the stock price input over [1.0, 10000.0]. *)
Definition vol_min_default (sigma : R) : R := py_max (5 / 100) (sigma - 3 / 10).

Definition vol_max_default (sigma : R) : R := sigma + 3 / 10.

Definition price_min_default (S : R) : R := py_max 1 (S * (7 / 10)).

Definition price_max_default (S : R) : R := S * (13 / 10).

(** X24: for a volatility in [0.01, 2] and a stock price in [1, 10000],
    the defaults of the two minimum inputs lie within the bounds declared
    for them and below the defaults of the maximum inputs; the default of
    "Max Volatility" is within its declared bounds exactly when
    sigma <= 1.7, and the default of "Max Stock Price" exactly when
    S <= 10000 / 1.3. *)
Theorem heat_map_default_ranges (sigma S : R) :
  1 / 100 <= sigma <= 2 -> 1 <= S <= 10000 ->
  1 / 100 <= vol_min_default sigma <= 2 /\
  1 <= price_min_default S <= 10000 /\
  vol_min_default sigma < vol_max_default sigma /\
  price_min_default S < price_max_default S /\
  1 / 100 <= vol_max_default sigma /\
  (vol_max_default sigma <= 2 <-> sigma <= 17 / 10) /\
  1 <= price_max_default S /\
  (price_max_default S <= 10000 <-> S <= 100000 / 13).
Proof.
  intros Hsig HS.
  unfold vol_min_default, vol_max_default, price_min_default,
    price_max_default, py_max.
  destruct (Rlt_dec (5 / 100) (sigma - 3 / 10)),
    (Rlt_dec 1 (S * (7 / 10)));
    repeat split; try intros; lra.
Qed.

Lemma heat_map_default_ranges_witness :
  (1 / 100 <= 18 / 10 <= 2 /\ 1 <= 8000 <= 10000) /\
  1 / 100 <= vol_min_default (18 / 10) <= 2 /\
  1 <= price_min_default 8000 <= 10000 /\
  vol_min_default (18 / 10) < vol_max_default (18 / 10) /\
  price_min_default 8000 < price_max_default 8000 /\
  1 / 100 <= vol_max_default (18 / 10) /\
  (vol_max_default (18 / 10) <= 2 <-> 18 / 10 <= 17 / 10) /\
  1 <= price_max_default 8000 /\
  (price_max_default 8000 <= 10000 <-> 8000 <= 100000 / 13).
Proof.
  assert (H1 : 1 / 100 <= 18 / 10 <= 2) by lra.
  assert (H2 : 1 <= 8000 <= 10000) by lra.
  split; [split; assumption|].
  exact (heat_map_default_ranges (18 / 10) 8000 H1 H2).
Defined.
